(** * Shallow embedding of pa-types: CIGAR strings, paths, cost and score models

    Source: src/src/cigar.rs and src/src/cost.rs.

    Representation choices.
    - [I], [Cost] and [Score] are Rust [i32]; they are modelled as [Z].
      Positions, counts and costs are modelled without i32 overflow; the
      score-to-cost conversion of [ScoreModel] writes the i32 wrap-around out
      (release-build arithmetic), since its exactness is what is at stake there.
    - A byte ([u8]) is a [Z] in [0, 255]; a sequence ([Seq]) and a [&str] are
      lists of bytes.
    - A panic is [None]: every function that can panic returns an [option]. *)

From Stdlib Require Import ZArith List Lia Bool String Ascii.
Import ListNotations.
Open Scope Z_scope.

(** ** Scalars *)

Abbreviation I := Z (only parsing).
Abbreviation Cost := Z (only parsing).
Abbreviation Score := Z (only parsing).
Abbreviation u8 := Z (only parsing).
Abbreviation Seq := (list Z) (only parsing).

Definition i32_max : Z := 2147483647.
Definition i32_min : Z := -2147483648.

(** [s.as_bytes()] of a Rust string literal (ASCII). *)
Definition bytes (s : string) : list u8 :=
  map (fun a => Z.of_nat (nat_of_ascii a)) (list_ascii_of_string s).

(** [u8::is_ascii_digit] *)
Definition is_ascii_digit (b : u8) : bool := (48 <=? b) && (b <=? 57).

(** ** Positions *)

(** [pub struct Pos(pub I, pub I)]: (text_pos, pattern_pos). *)
Record Pos := MkPos { p0 : I; p1 : I }.

Definition Pos_eqb (a b : Pos) : bool := (p0 a =? p0 b) && (p1 a =? p1 b).

Definition pos_add (a b : Pos) : Pos := MkPos (p0 a + p0 b) (p1 a + p1 b).
Definition pos_sub (a b : Pos) : Pos := MkPos (p0 a - p0 b) (p1 a - p1 b).
(** [impl Mul<I> for Pos] *)
Definition pos_mul (a : Pos) (k : I) : Pos := MkPos (p0 a * k) (p1 a * k).

(** ** CIGAR operations *)

Inductive CigarOp := Match | Sub | Del | Ins.

Definition CigarOp_eqb (a b : CigarOp) : bool :=
  match a, b with
  | Match, Match | Sub, Sub | Del, Del | Ins, Ins => true
  | _, _ => false
  end.

(** [CigarOp::to_char], as the byte of the character. *)
Definition to_char (op : CigarOp) : u8 :=
  match op with
  | Match => 61 (* '=' *)
  | Sub => 88   (* 'X' *)
  | Ins => 73   (* 'I' *)
  | Del => 68   (* 'D' *)
  end.

(** [CigarOp::delta] *)
Definition delta (op : CigarOp) : Pos :=
  match op with
  | Match | Sub => MkPos 1 1
  | Del => MkPos 1 0
  | Ins => MkPos 0 1
  end.

(** [CigarOp::from_delta]; [None] is the [panic!("Invalid delta")]. *)
Definition from_delta (d : Pos) : option CigarOp :=
  match p0 d, p1 d with
  | 0, 1 => Some Ins
  | 1, 0 => Some Del
  | 1, 1 => Some Match
  | _, _ => None
  end.

(** [impl From<u8> for CigarOp]; [None] is [panic!("Invalid CigarOp")]. *)
Definition CigarOp_from_u8 (b : u8) : option CigarOp :=
  if (b =? 61) || (b =? 77) then Some Match      (* b'=' | b'M' *)
  else if b =? 88 then Some Sub                  (* b'X' *)
  else if b =? 73 then Some Ins                  (* b'I' *)
  else if b =? 68 then Some Del                  (* b'D' *)
  else None.

Record CigarElem := MkElem { op : CigarOp; cnt : I }.

Record Cigar := MkCigar { ops : list CigarElem }.

(** ** Builders *)

(** [Cigar::push_elem] on the vector of elements: merge into the last element
    when it has the same op, else append. The counts are added in [Z];
    [push_elem_ops_wrap] below adds them on [i32]. *)
Fixpoint push_elem_ops (l : list CigarElem) (e : CigarElem) : list CigarElem :=
  match l with
  | [] => [e]
  | [s] => if CigarOp_eqb (op s) (op e) then [MkElem (op s) (cnt s + cnt e)]
           else [s; e]
  | s :: t => s :: push_elem_ops t e
  end.

Definition push_elem (c : Cigar) (e : CigarElem) : Cigar :=
  MkCigar (push_elem_ops (ops c) e).

(** [Cigar::push]: [s.cnt += 1] on a last element with the same op, else
    push [CigarElem { op, cnt: 1 }] -- i.e. [push_elem] of a unit element. *)
Definition push (c : Cigar) (o : CigarOp) : Cigar := push_elem c (MkElem o 1).

(** [Cigar::push_matches] *)
Definition push_matches (c : Cigar) (n : I) : Cigar := push_elem c (MkElem Match n).

(** [Itertools::chunk_by(|&op| op)] followed by [(op, group.count())]. *)
Fixpoint chunk_ops (cur : CigarOp) (n : nat) (l : list CigarOp) : list CigarElem :=
  match l with
  | [] => [MkElem cur (Z.of_nat n)]
  | o :: t => if CigarOp_eqb o cur then chunk_ops cur (S n) t
              else MkElem cur (Z.of_nat n) :: chunk_ops o 1 t
  end.

(** [Cigar::from_ops] *)
Definition from_ops (l : list CigarOp) : Cigar :=
  MkCigar (match l with [] => [] | o :: t => chunk_ops o 1 t end).

(** ** Textual encoding *)

(** Decimal digits of a non-negative integer ([Display for i32]); [fuel]
    bounds the recursion and is chosen large enough by [show_I]. *)
Fixpoint digits_fuel (fuel : nat) (n : Z) : list u8 :=
  match fuel with
  | O => []
  | S f => if n <? 10 then [48 + n]
           else digits_fuel f (n / 10) ++ [48 + n mod 10]
  end.

(** [format!("{}", n)] for [n : i32]. *)
Definition show_I (n : I) : list u8 :=
  if n <? 0 then 45 (* '-' *) :: digits_fuel (S (Z.to_nat (- n))) (- n)
  else digits_fuel (S (Z.to_nat n)) n.

(** [impl ToString for Cigar]: [write!(s, "{}{}", elem.cnt, elem.op.to_char())]. *)
Definition to_string (c : Cigar) : list u8 :=
  flat_map (fun e => show_I (cnt e) ++ [to_char (op e)]) (ops c).

(** [<[u8]>::split_inclusive(pred)]: each piece ends at an element satisfying
    [pred]; a non-empty remainder is the last piece; an empty slice yields no
    piece at all. [cur] is the piece being accumulated. *)
Fixpoint split_inclusive_go (pred : u8 -> bool) (cur : list u8) (l : list u8)
  : list (list u8) :=
  match l with
  | [] => match cur with [] => [] | _ => [cur] end
  | x :: t => if pred x then (cur ++ [x]) :: split_inclusive_go pred [] t
              else split_inclusive_go pred (cur ++ [x]) t
  end.

Definition split_inclusive (pred : u8 -> bool) (l : list u8) : list (list u8) :=
  split_inclusive_go pred [] l.

(** [<[T]>::split_last]: the last element and the rest. *)
Definition split_last (l : list u8) : option (u8 * list u8) :=
  match rev l with
  | [] => None
  | x :: r => Some (x, rev r)
  end.

(** [str::parse::<i32>()] on a non-empty string of ASCII digits: its value,
    or [None] ([Err], overflow) above [i32::MAX]. *)
Definition digits_value (l : list u8) : Z :=
  fold_left (fun acc b => acc * 10 + (b - 48)) l 0.

Definition parse_I (l : list u8) : option I :=
  if digits_value l <=? i32_max then Some (digits_value l) else None.

(** One piece of [Cigar::from_string]: [split_last().expect(..)], the count
    ([1] when absent, else [parse().expect(..)]), then [op.into()]. *)
Definition parse_piece (slice : list u8) : option CigarElem :=
  match split_last slice with
  | None => None
  | Some (o, cnt_bytes) =>
      match (match cnt_bytes with [] => Some 1 | _ => parse_I cnt_bytes end) with
      | None => None
      | Some n =>
          match CigarOp_from_u8 o with
          | None => None
          | Some op' => Some (MkElem op' n)
          end
      end
  end.

Fixpoint from_string_go (c : Cigar) (pieces : list (list u8)) : option Cigar :=
  match pieces with
  | [] => Some c
  | slice :: rest =>
      match parse_piece slice with
      | None => None
      | Some e => from_string_go (push_elem c e) rest
      end
  end.

(** [Cigar::from_string] *)
Definition from_string (s : list u8) : option Cigar :=
  from_string_go (MkCigar []) (split_inclusive (fun b => negb (is_ascii_digit b)) s).

(** ** Cost model ([src/src/cost.rs]) *)

Record CostModel := MkCostModel { sub : Cost; open : Cost; extend : Cost }.

(** [CostModel::unit] *)
Definition CostModel_unit : CostModel := MkCostModel 1 0 1.

(** [CostModel::ins] and [CostModel::del] *)
Definition ins (cm : CostModel) (len : I) : Cost := open cm + len * extend cm.
Definition del (cm : CostModel) (len : I) : Cost := open cm + len * extend cm.

(** ** Verification *)

Inductive VerifyError := MatchMismatch | SubEquality | LengthMismatch.

Inductive result (A : Type) := Ok (a : A) | Err (e : VerifyError).
Arguments Ok {A} a.
Arguments Err {A} e.

(** [<[u8]>::get(i as usize)]: a negative [i32] cast to [usize] is out of
    bounds. *)
Definition get (l : Seq) (i : I) : option u8 :=
  if i <? 0 then None else nth_error l (Z.to_nat i).

Definition opt_u8_eqb (a b : option u8) : bool :=
  match a, b with
  | Some x, Some y => x =? y
  | None, None => true
  | _, _ => false
  end.

(** The [Match] arm of [verify]: [cnt] iterations of the byte check at [pos]
    ([pos] is not changed inside the loop). *)
Fixpoint verify_match_loop (n : nat) (text pattern : Seq) (pos : Pos) : result unit :=
  match n with
  | O => Ok tt
  | S n' =>
      if negb (opt_u8_eqb (get text (p0 pos)) (get pattern (p1 pos)))
      then Err MatchMismatch
      else verify_match_loop n' text pattern pos
  end.

(** The [Sub] arm of [verify]. *)
Fixpoint verify_sub_loop (n : nat) (cm : CostModel) (text pattern : Seq) (pos : Pos)
    (cost : Cost) : result Cost :=
  match n with
  | O => Ok cost
  | S n' =>
      if opt_u8_eqb (get text (p0 pos)) (get pattern (p1 pos))
      then Err SubEquality
      else verify_sub_loop n' cm text pattern pos (cost + sub cm)
  end.

(** The [for &CigarElem { op, cnt } in &self.ops] loop of [verify]; [0..cnt]
    runs [Z.to_nat cnt] times. *)
Fixpoint verify_elems (cm : CostModel) (text pattern : Seq) (pos : Pos) (cost : Cost)
    (els : list CigarElem) : result (Pos * Cost) :=
  match els with
  | [] => Ok (pos, cost)
  | MkElem o n :: rest =>
      let pos' := pos_add pos (pos_mul (delta o) n) in
      match o with
      | Match =>
          match verify_match_loop (Z.to_nat n) text pattern pos' with
          | Err e => Err e
          | Ok _ => verify_elems cm text pattern pos' cost rest
          end
      | Sub =>
          match verify_sub_loop (Z.to_nat n) cm text pattern pos' cost with
          | Err e => Err e
          | Ok cost' => verify_elems cm text pattern pos' cost' rest
          end
      | Ins => verify_elems cm text pattern pos' (cost + (open cm + n * extend cm)) rest
      | Del => verify_elems cm text pattern pos' (cost + (open cm + n * extend cm)) rest
      end
  end.

(** [Cigar::verify] *)
Definition verify (c : Cigar) (cm : CostModel) (text pattern : Seq) : result Cost :=
  match verify_elems cm text pattern (MkPos 0 0) 0 (ops c) with
  | Err e => Err e
  | Ok (pos, cost) =>
      if Pos_eqb pos (MkPos (Z.of_nat (List.length text)) (Z.of_nat (List.length pattern)))
      then Ok cost
      else Err LengthMismatch
  end.

(** ** Path with costs *)

(** The [Match] arm of [to_path_with_costs]. *)
Fixpoint twc_match (n : nat) (d : Pos) (pos : Pos) (cost : Cost) : list (Pos * Cost) * Pos :=
  match n with
  | O => ([], pos)
  | S n' => let pos' := pos_add pos d in
            let '(out, pos'') := twc_match n' d pos' cost in ((pos', cost) :: out, pos'')
  end.

(** The [Sub] arm: [cost += cm.sub] at each base. *)
Fixpoint twc_sub (n : nat) (cm : CostModel) (d : Pos) (pos : Pos) (cost : Cost)
    : list (Pos * Cost) * Pos * Cost :=
  match n with
  | O => ([], pos, cost)
  | S n' => let pos' := pos_add pos d in
            let cost' := cost + sub cm in
            let '(out, pos'', cost'') := twc_sub n' cm d pos' cost' in
            ((pos', cost') :: out, pos'', cost'')
  end.

(** The [Ins]/[Del] arms: [for len in 1..=cnt], pushing [cost + cm.ins(len)]. *)
Fixpoint twc_gap (n : nat) (g : I -> Cost) (len : I) (d : Pos) (pos : Pos) (cost : Cost)
    : list (Pos * Cost) * Pos :=
  match n with
  | O => ([], pos)
  | S n' => let pos' := pos_add pos d in
            let '(out, pos'') := twc_gap n' g (len + 1) d pos' cost in
            ((pos', cost + g len) :: out, pos'')
  end.

Fixpoint twc_go (cm : CostModel) (pos : Pos) (cost : Cost) (els : list CigarElem)
    : list (Pos * Cost) :=
  match els with
  | [] => []
  | MkElem o n :: rest =>
      match o with
      | Match => let '(out, pos') := twc_match (Z.to_nat n) (delta o) pos cost in
                 out ++ twc_go cm pos' cost rest
      | Sub => let '(out, pos', cost') := twc_sub (Z.to_nat n) cm (delta o) pos cost in
               out ++ twc_go cm pos' cost' rest
      | Ins => let '(out, pos') := twc_gap (Z.to_nat n) (ins cm) 1 (delta o) pos cost in
               out ++ twc_go cm pos' (cost + ins cm n) rest
      | Del => let '(out, pos') := twc_gap (Z.to_nat n) (del cm) 1 (delta o) pos cost in
               out ++ twc_go cm pos' (cost + del cm n) rest
      end
  end.

(** [Cigar::to_path_with_costs], its costs computed in [Z];
    [to_path_with_costs_wrap] below computes them on [i32]. *)
Definition to_path_with_costs (c : Cigar) (cm : CostModel) : list (Pos * Cost) :=
  (MkPos 0 0, 0) :: twc_go cm (MkPos 0 0) 0 (ops c).

(** ** Match/Sub resolution and construction from a path *)

(** [text[i as usize]]: [None] is the out-of-bounds panic. *)
Definition index (l : Seq) (i : I) : option u8 := get l i.

(** The [Match] arm of [resolve_matches]: one [push] per base, then advance. *)
Fixpoint resolve_match_loop (n : nat) (text pattern : Seq) (pos : Pos) (c : Cigar)
    : option (Pos * Cigar) :=
  match n with
  | O => Some (pos, c)
  | S n' =>
      match index text (p0 pos), index pattern (p1 pos) with
      | Some a, Some b =>
          resolve_match_loop n' text pattern (pos_add pos (delta Match))
            (push c (if a =? b then Match else Sub))
      | _, _ => None
      end
  end.

Fixpoint resolve_go (text pattern : Seq) (pos : Pos) (c : Cigar) (els : list CigarElem)
    : option Cigar :=
  match els with
  | [] => Some c
  | MkElem o n :: rest =>
      match o with
      | Match =>
          match resolve_match_loop (Z.to_nat n) text pattern pos c with
          | None => None
          | Some (pos', c') => resolve_go text pattern pos' c' rest
          end
      | _ => resolve_go text pattern (pos_add pos (pos_mul (delta o) n))
               (push_elem c (MkElem o n)) rest
      end
  end.

(** [Cigar::resolve_matches], positions and counts in [Z];
    [resolve_matches_wrap] below computes them on [i32]. *)
Definition resolve_matches (els : list CigarElem) (text pattern : Seq) : option Cigar :=
  resolve_go text pattern (MkPos 0 0) (MkCigar []) els.

(** [Itertools::tuple_windows] on pairs. *)
Fixpoint windows (l : list Pos) : list (Pos * Pos) :=
  match l with
  | a :: ((b :: _) as t) => (a, b) :: windows t
  | _ => []
  end.

(** The mapped iterator of [from_path]: one unit element per window, its op
    given by [from_delta(next - prev)]. The iterator is lazy, but
    [resolve_matches] pulls every element unless it has panicked already,
    so a [from_delta] panic anywhere is a panic of the whole call. *)
Fixpoint path_elems (w : list (Pos * Pos)) : option (list CigarElem) :=
  match w with
  | [] => Some []
  | (a, b) :: rest =>
      match from_delta (pos_sub b a), path_elems rest with
      | Some o, Some els => Some (MkElem o 1 :: els)
      | _, _ => None
      end
  end.

(** [Cigar::from_path]: [path[0]] panics on an empty path. *)
Definition from_path (text pattern : Seq) (path : list Pos) : option Cigar :=
  match path with
  | [] => None
  | first :: _ =>
      if negb (Pos_eqb first (MkPos 0 0)) then None
      else match path_elems (windows path) with
           | None => None
           | Some els => resolve_matches els text pattern
           end
  end.

(** ** Score model *)

Module ScoreModel.

(** Two's-complement wrap-around of an [i32] result (release arithmetic). *)
Definition wrap_i32 (z : Z) : Z := (z + 2 ^ 31) mod 2 ^ 32 - 2 ^ 31.

Record ScoreModel := MkScoreModel
  { r_match : Score; sm_sub : Score; sm_open : Score; sm_extend : Score; factor : Z }.

Definition OFFSET : Z := 1.

(** [ScoreModel::from_costs] *)
Definition from_costs (cm : CostModel) : ScoreModel :=
  let factor :=
    if (sub cm >? 2) && (extend cm >? 1) then 1
    else if sub cm =? 1 then 3
    else 2 in
  MkScoreModel
    (OFFSET * 2)
    (wrap_i32 (wrap_i32 (wrap_i32 (- sub cm) * factor) + OFFSET * 2))
    (wrap_i32 (wrap_i32 (- open cm) * factor))
    (wrap_i32 (wrap_i32 (wrap_i32 (- extend cm) * factor) + OFFSET))
    factor.

(** [ScoreModel::global_cost]: [(a_len + b_len) as i32] truncates; [%] and
    [/] on [i32] round toward zero; [None] is the failed [assert!]. *)
Definition global_cost (sm : ScoreModel) (score : Score) (a_len b_len : Z) : option Cost :=
  let path_len := wrap_i32 (a_len + b_len) in
  let s := wrap_i32 (wrap_i32 (- score) + wrap_i32 (path_len * OFFSET)) in
  if Z.rem s (factor sm) =? 0 then Some (Z.quot s (factor sm)) else None.

(** The score of an alignment with [m] Match bases, [x] Sub bases, [g] gap
    runs and [b] gap bases under [sm]. *)
Definition alignment_score (sm : ScoreModel) (m x g b : Z) : Score :=
  m * r_match sm + x * sm_sub sm + g * sm_open sm + b * sm_extend sm.

End ScoreModel.

(** ** Further functions of [Cigar] *)

(** One run of [Cigar::to_path]: [cnt] times [pos += delta; path.push(pos)]. *)
Fixpoint to_path_run (n : nat) (d : Pos) (pos : Pos) : list Pos * Pos :=
  match n with
  | O => ([], pos)
  | S n' => let pos' := pos_add pos d in
            let '(out, pos'') := to_path_run n' d pos' in (pos' :: out, pos'')
  end.

Fixpoint to_path_go (pos : Pos) (els : list CigarElem) : list Pos :=
  match els with
  | [] => []
  | e :: rest => let '(out, pos') := to_path_run (Z.to_nat (cnt e)) (delta (op e)) pos in
                 out ++ to_path_go pos' rest
  end.

(** [Cigar::to_path] *)
Definition to_path (c : Cigar) : list Pos := MkPos 0 0 :: to_path_go (MkPos 0 0) (ops c).

(** [Cigar::reverse] *)
Definition reverse (c : Cigar) : Cigar := MkCigar (rev (ops c)).

Module OpChars.

(** [enum CigarOpChars]: [Sub] holds (from, to) = (text byte, pattern byte). *)
Inductive CigarOpChars := Match (a : u8) | Sub (a b : u8) | Del (a : u8) | Ins (a : u8).

End OpChars.

(** [!(b'A' ^ b'a')] as a [u8]. *)
Definition fix_case : u8 := Z.land (Z.lnot (Z.lxor 65 97)) 255.

(** One base of [Cigar::to_char_pairs]: [text[i]] and [pattern[j]] panic out
    of bounds; the [assert_ne!] of the [Sub] arm compares the bytes with the
    ASCII case bit cleared. *)
Definition to_char_pair (o : CigarOp) (text pattern : Seq) (pos : Pos)
    : option OpChars.CigarOpChars :=
  match o with
  | Match => option_map OpChars.Match (index text (p0 pos))
  | Sub => match index text (p0 pos), index pattern (p1 pos) with
           | Some a, Some b =>
               if Z.land a fix_case =? Z.land b fix_case then None
               else Some (OpChars.Sub a b)
           | _, _ => None
           end
  | Del => option_map OpChars.Del (index text (p0 pos))
  | Ins => option_map OpChars.Ins (index pattern (p1 pos))
  end.

Fixpoint to_char_pairs_run (n : nat) (o : CigarOp) (text pattern : Seq) (pos : Pos)
    : option (list OpChars.CigarOpChars * Pos) :=
  match n with
  | O => Some ([], pos)
  | S n' =>
      match to_char_pair o text pattern pos with
      | None => None
      | Some ch =>
          match to_char_pairs_run n' o text pattern (pos_add pos (delta o)) with
          | None => None
          | Some (out, pos') => Some (ch :: out, pos')
          end
      end
  end.

Fixpoint to_char_pairs_go (text pattern : Seq) (pos : Pos) (els : list CigarElem)
    : option (list OpChars.CigarOpChars) :=
  match els with
  | [] => Some []
  | e :: rest =>
      match to_char_pairs_run (Z.to_nat (cnt e)) (op e) text pattern pos with
      | None => None
      | Some (out, pos') =>
          match to_char_pairs_go text pattern pos' rest with
          | None => None
          | Some out' => Some (out ++ out')
          end
      end
  end.

(** [Cigar::to_char_pairs] *)
Definition to_char_pairs (c : Cigar) (text pattern : Seq) : option (list OpChars.CigarOpChars) :=
  to_char_pairs_go text pattern (MkPos 0 0) (ops c).

(** Mapping a fallible function over a list: [None] as soon as one
    application is [None]. *)
Fixpoint map_option {A B : Type} (f : A -> option B) (l : list A) : option (list B) :=
  match l with
  | [] => Some []
  | x :: r => match f x, map_option f r with
              | Some y, Some ys => Some (y :: ys)
              | _, _ => None
              end
  end.

(** [Cigar::parse_without_counts]. The mapped iterator is lazy, but every
    panic (of [op.into()] or of [resolve_matches]) is a panic of the whole
    call, so the elements may be mapped first. *)
Definition parse_without_counts (s : list u8) (text pattern : Seq) : option Cigar :=
  match map_option CigarOp_from_u8 s with
  | None => None
  | Some os => resolve_matches (map (fun o => MkElem o 1) os) text pattern
  end.

Fixpoint parse_without_resolving_go (c : Cigar) (s : list u8) : option Cigar :=
  match s with
  | [] => Some c
  | b :: rest => match CigarOp_from_u8 b with
                 | None => None
                 | Some o => parse_without_resolving_go (push c o) rest
                 end
  end.

(** [Cigar::parse_without_resolving] *)
Definition parse_without_resolving (s : list u8) : option Cigar :=
  parse_without_resolving_go (MkCigar []) s.

(** [u8::is_ascii_alphabetic] *)
Definition is_ascii_alphabetic (b : u8) : bool :=
  ((65 <=? b) && (b <=? 90)) || ((97 <=? b) && (b <=? 122)).

(** The digits of [<i32 as FromStr>::from_str] after the sign: all ASCII
    digits, and the value within [i32] (the checked steps of the
    accumulation overflow exactly when the final value is out of range). *)
Definition parse_digits_i32 (neg : bool) (l : list u8) : option I :=
  if forallb is_ascii_digit l then
    let v := digits_value l in
    if neg then (if i32_min <=? - v then Some (- v) else None)
    else (if v <=? i32_max then Some v else None)
  else None.

(** [<i32 as FromStr>::from_str]: empty is an error, a lone sign is an
    error, a leading [+] or [-] is a sign. *)
Definition parse_i32 (l : list u8) : option I :=
  match l with
  | [] => None
  | b :: r =>
      if b =? 43 then (match r with [] => None | _ => parse_digits_i32 false r end)
      else if b =? 45 then (match r with [] => None | _ => parse_digits_i32 true r end)
      else parse_digits_i32 false l
  end.

(** One slice of [Cigar::parse]: [split_last().unwrap()], the count ([1]
    when absent, else [parse().unwrap()]), then [op.into()]. *)
Definition parse_count_piece (slice : list u8) : option CigarElem :=
  match split_last slice with
  | None => None
  | Some (o, cnt_bytes) =>
      match (match cnt_bytes with [] => Some 1 | _ => parse_i32 cnt_bytes end) with
      | None => None
      | Some n =>
          match CigarOp_from_u8 o with
          | None => None
          | Some op' => Some (MkElem op' n)
          end
      end
  end.

(** [Cigar::parse]; as for [parse_without_counts], the lazy mapping may be
    done first since every panic is a panic of the whole call. *)
Definition parse (s : list u8) (text pattern : Seq) : option Cigar :=
  match map_option parse_count_piece (split_inclusive is_ascii_alphabetic s) with
  | None => None
  | Some els => resolve_matches els text pattern
  end.

(** ** [i32] wrap-around of counts, positions and costs *)

(** [i32::wrapping_add] and [i32::wrapping_mul]: what [+], [+=] and [*] on
    [i32] compute in a release build. A debug build panics instead on the
    same inputs; both agree with the exact result whenever it lies in the
    [i32] range. *)
Definition wrapping_add (a b : Z) : Z := ScoreModel.wrap_i32 (a + b).
Definition wrapping_mul (a b : Z) : Z := ScoreModel.wrap_i32 (a * b).

(** [Pos += Pos] and [Pos * I] on the [i32] components. *)
Definition pos_wrapping_add (a b : Pos) : Pos :=
  MkPos (wrapping_add (p0 a) (p0 b)) (wrapping_add (p1 a) (p1 b)).
Definition pos_wrapping_mul (a : Pos) (k : I) : Pos :=
  MkPos (wrapping_mul (p0 a) k) (wrapping_mul (p1 a) k).

(** [Cigar::push_elem] with the merge [s.cnt += e.cnt] on [i32]. *)
Fixpoint push_elem_ops_wrap (l : list CigarElem) (e : CigarElem) : list CigarElem :=
  match l with
  | [] => [e]
  | [s] => if CigarOp_eqb (op s) (op e) then [MkElem (op s) (wrapping_add (cnt s) (cnt e))]
           else [s; e]
  | s :: t => s :: push_elem_ops_wrap t e
  end.

Definition push_elem_wrap (c : Cigar) (e : CigarElem) : Cigar :=
  MkCigar (push_elem_ops_wrap (ops c) e).

(** [Cigar::push] with [s.cnt += 1] on [i32]. *)
Definition push_wrap (c : Cigar) (o : CigarOp) : Cigar := push_elem_wrap c (MkElem o 1).

Fixpoint from_string_go_wrap (c : Cigar) (pieces : list (list u8)) : option Cigar :=
  match pieces with
  | [] => Some c
  | slice :: rest =>
      match parse_piece slice with
      | None => None
      | Some e => from_string_go_wrap (push_elem_wrap c e) rest
      end
  end.

(** [Cigar::from_string] with the [i32] merges of [push_elem]. *)
Definition from_string_wrap (s : list u8) : option Cigar :=
  from_string_go_wrap (MkCigar []) (split_inclusive (fun b => negb (is_ascii_digit b)) s).

(** The [Match] arm of [resolve_matches] with [pos += op.delta()] and the
    pushes on [i32]. *)
Fixpoint resolve_match_loop_wrap (n : nat) (text pattern : Seq) (pos : Pos) (c : Cigar)
    : option (Pos * Cigar) :=
  match n with
  | O => Some (pos, c)
  | S n' =>
      match index text (p0 pos), index pattern (p1 pos) with
      | Some a, Some b =>
          resolve_match_loop_wrap n' text pattern (pos_wrapping_add pos (delta Match))
            (push_wrap c (if a =? b then Match else Sub))
      | _, _ => None
      end
  end.

Fixpoint resolve_go_wrap (text pattern : Seq) (pos : Pos) (c : Cigar) (els : list CigarElem)
    : option Cigar :=
  match els with
  | [] => Some c
  | MkElem o n :: rest =>
      match o with
      | Match =>
          match resolve_match_loop_wrap (Z.to_nat n) text pattern pos c with
          | None => None
          | Some (pos', c') => resolve_go_wrap text pattern pos' c' rest
          end
      | _ => resolve_go_wrap text pattern (pos_wrapping_add pos (pos_wrapping_mul (delta o) n))
               (push_elem_wrap c (MkElem o n)) rest
      end
  end.

(** [Cigar::resolve_matches] with [pos += op.delta() * cnt] and the count
    merges on [i32]. *)
Definition resolve_matches_wrap (els : list CigarElem) (text pattern : Seq) : option Cigar :=
  resolve_go_wrap text pattern (MkPos 0 0) (MkCigar []) els.

(** [Cigar::parse] with the [i32] arithmetic of [resolve_matches]. *)
Definition parse_wrap (s : list u8) (text pattern : Seq) : option Cigar :=
  match map_option parse_count_piece (split_inclusive is_ascii_alphabetic s) with
  | None => None
  | Some els => resolve_matches_wrap els text pattern
  end.

(** [CostModel::ins] and [CostModel::del] on [i32]. *)
Definition ins_wrap (cm : CostModel) (len : I) : Cost :=
  wrapping_add (open cm) (wrapping_mul len (extend cm)).
Definition del_wrap (cm : CostModel) (len : I) : Cost :=
  wrapping_add (open cm) (wrapping_mul len (extend cm)).

(** The [Sub] arm of [to_path_with_costs] with [cost += cm.sub] on [i32].
    The positions advance by one column per base, as in [twc_sub]: they
    cannot leave the [i32] range before 2^31 bases. *)
Fixpoint twc_sub_wrap (n : nat) (cm : CostModel) (d : Pos) (pos : Pos) (cost : Cost)
    : list (Pos * Cost) * Pos * Cost :=
  match n with
  | O => ([], pos, cost)
  | S n' => let pos' := pos_add pos d in
            let cost' := wrapping_add cost (sub cm) in
            let '(out, pos'', cost'') := twc_sub_wrap n' cm d pos' cost' in
            ((pos', cost') :: out, pos'', cost'')
  end.

(** The [Ins]/[Del] arms, pushing [cost + cm.ins(len)] on [i32]. *)
Fixpoint twc_gap_wrap (n : nat) (g : I -> Cost) (len : I) (d : Pos) (pos : Pos) (cost : Cost)
    : list (Pos * Cost) * Pos :=
  match n with
  | O => ([], pos)
  | S n' => let pos' := pos_add pos d in
            let '(out, pos'') := twc_gap_wrap n' g (len + 1) d pos' cost in
            ((pos', wrapping_add cost (g len)) :: out, pos'')
  end.

Fixpoint twc_go_wrap (cm : CostModel) (pos : Pos) (cost : Cost) (els : list CigarElem)
    : list (Pos * Cost) :=
  match els with
  | [] => []
  | MkElem o n :: rest =>
      match o with
      | Match => let '(out, pos') := twc_match (Z.to_nat n) (delta o) pos cost in
                 out ++ twc_go_wrap cm pos' cost rest
      | Sub => let '(out, pos', cost') := twc_sub_wrap (Z.to_nat n) cm (delta o) pos cost in
               out ++ twc_go_wrap cm pos' cost' rest
      | Ins => let '(out, pos') := twc_gap_wrap (Z.to_nat n) (ins_wrap cm) 1 (delta o) pos cost in
               out ++ twc_go_wrap cm pos' (wrapping_add cost (ins_wrap cm n)) rest
      | Del => let '(out, pos') := twc_gap_wrap (Z.to_nat n) (del_wrap cm) 1 (delta o) pos cost in
               out ++ twc_go_wrap cm pos' (wrapping_add cost (del_wrap cm n)) rest
      end
  end.

(** [Cigar::to_path_with_costs] with the cost arithmetic on [i32]. *)
Definition to_path_with_costs_wrap (c : Cigar) (cm : CostModel) : list (Pos * Cost) :=
  (MkPos 0 0, 0) :: twc_go_wrap cm (MkPos 0 0) 0 (ops c).

(** ** Predicates and measures used in the statements *)

(** Run-coalescing: no two adjacent elements share an op. *)
Fixpoint coalesced (l : list CigarElem) : bool :=
  match l with
  | a :: ((b :: _) as t) => negb (CigarOp_eqb (op a) (op b)) && coalesced t
  | _ => true
  end.

(** The per-base op stream of a list of runs ([0..cnt] runs [Z.to_nat cnt] times). *)
Definition expand (l : list CigarElem) : list CigarOp :=
  flat_map (fun e => repeat (op e) (Z.to_nat (cnt e))) l.

(** Sum over the elements of [op.delta() * cnt]. *)
Definition sum_delta (l : list CigarElem) : Pos :=
  fold_right (fun e acc => pos_add (pos_mul (delta (op e)) (cnt e)) acc) (MkPos 0 0) l.

(** Sum of the counts of the runs of a given op. *)
Definition op_count (o : CigarOp) (l : list CigarElem) : Z :=
  fold_right (fun e acc => (if CigarOp_eqb (op e) o then cnt e else 0) + acc) 0 l.

(** The op-character table as the spec states it ([M] and [=] are Match,
    [X] Sub, [I] Ins, [D] Del), for characters of that table. *)
Definition spec_op_of_char (b : u8) : CigarOp :=
  if b =? 88 then Sub else if b =? 73 then Ins else if b =? 68 then Del else Match.

(** One token of the textual grammar as the spec states it: the digits
    before the op character are the count, [1] when there are none. *)
Definition spec_token (t : list u8 * u8) : CigarElem :=
  MkElem (spec_op_of_char (snd t))
         (match fst t with [] => 1 | _ => digits_value (fst t) end).

(** The bytes of a token: its digits, then its op character. *)
Definition token_bytes (t : list u8 * u8) : list u8 := fst t ++ [snd t].

(** The cost the spec assigns to a run: [0] for Match, [sub] per base for
    Sub, [open + cnt * extend] for an Ins or Del run. *)
Definition elem_cost (cm : CostModel) (e : CigarElem) : Cost :=
  match op e with
  | Match => 0
  | Sub => Z.of_nat (Z.to_nat (cnt e)) * sub cm
  | Ins | Del => open cm + cnt e * extend cm
  end.

Definition total_cost (cm : CostModel) (l : list CigarElem) : Cost :=
  fold_right (fun e acc => elem_cost cm e + acc) 0 l.

(** The cost trace as the spec states it: the k-th base (k from 1) of a run
    that starts at [pos] with running cost [cost] is at [pos + k * delta]
    and carries [cost] (Match), [cost + k * sub] (Sub) or
    [cost + open + k * extend] (Ins, Del); after the run, the running cost
    is [cost], [cost + L * sub] or [cost + open + L * extend]. A run of
    count [cnt] has [Z.to_nat cnt] bases. *)
Definition spec_run (cm : CostModel) (pos : Pos) (cost : Cost) (e : CigarElem)
    : list (Pos * Cost) * Cost :=
  let L := Z.to_nat (cnt e) in
  let at_ k := pos_add pos (pos_mul (delta (op e)) (Z.of_nat k)) in
  match op e with
  | Match => (map (fun k => (at_ k, cost)) (seq 1 L), cost)
  | Sub => (map (fun k => (at_ k, cost + Z.of_nat k * sub cm)) (seq 1 L),
            cost + Z.of_nat L * sub cm)
  | Ins | Del => (map (fun k => (at_ k, cost + (open cm + Z.of_nat k * extend cm))) (seq 1 L),
                  cost + (open cm + cnt e * extend cm))
  end.

Fixpoint spec_trace (cm : CostModel) (pos : Pos) (cost : Cost) (els : list CigarElem)
    : list (Pos * Cost) :=
  match els with
  | [] => []
  | e :: rest =>
      fst (spec_run cm pos cost e) ++
      spec_trace cm (pos_add pos (pos_mul (delta (op e)) (Z.of_nat (Z.to_nat (cnt e)))))
        (snd (spec_run cm pos cost e)) rest
  end.

(** How a base of the input stream may be classified in the output of
    [resolve_matches]: a nominal Match base as Match or Sub, any other base
    as itself. *)
Definition reclassified (i o : CigarOp) : Prop := i = o \/ (i = Match /\ o = Sub).

(** Every base of every nominal Match run indexes within both sequences:
    the k-th base (k from 0) of a Match run starting at [pos] reads
    [text[pos.0 + k]] and [pattern[pos.1 + k]]. *)
Fixpoint match_bases_in_bounds (text pattern : Seq) (pos : Pos) (els : list CigarElem) : bool :=
  match els with
  | [] => true
  | e :: rest =>
      (match op e with
       | Match =>
           forallb (fun k => (0 <=? p0 pos + k) && (p0 pos + k <? Z.of_nat (List.length text)) &&
                             (0 <=? p1 pos + k) && (p1 pos + k <? Z.of_nat (List.length pattern)))
             (map Z.of_nat (seq 0 (Z.to_nat (cnt e))))
       | _ => true
       end) &&
      match_bases_in_bounds text pattern (pos_add pos (pos_mul (delta (op e)) (cnt e))) rest
  end.

(** A well-formed token: ASCII digits whose value fits in [i32], then one
    of the op characters [M], [=], [X], [I], [D]. *)
Definition token_ok (t : list u8 * u8) : Prop :=
  forallb is_ascii_digit (fst t) = true /\ In (snd t) [77; 61; 88; 73; 68] /\
  digits_value (fst t) <= i32_max.

(** The op [from_delta] gives back for the delta of an op: [Sub] and
    [Match] share the delta (1,1), which reads back as [Match]. *)
Definition path_op (o : CigarOp) : CigarOp := match o with Sub => Match | _ => o end.

(** Unit-count elements, one per op. *)
Definition unit_elems (l : list CigarOp) : list CigarElem := map (fun o => MkElem o 1) l.

(** The positions reached after each op of a per-base op stream. *)
Fixpoint pos_scan (pos : Pos) (l : list CigarOp) : list Pos :=
  match l with
  | [] => []
  | o :: r => pos_add pos (delta o) :: pos_scan (pos_add pos (delta o)) r
  end.

(** The position after a per-base op stream. *)
Definition pos_end (pos : Pos) (l : list CigarOp) : Pos :=
  fold_left (fun p o => pos_add p (delta o)) l pos.

(** A per-base op stream agrees with the sequences: each Match base reads
    two equal bytes in bounds, each Sub base two different bytes in bounds. *)
Fixpoint bases_consistent (text pattern : Seq) (pos : Pos) (l : list CigarOp) : bool :=
  match l with
  | [] => true
  | o :: r =>
      (match o with
       | Match => match index text (p0 pos), index pattern (p1 pos) with
                  | Some a, Some b => a =? b
                  | _, _ => false
                  end
       | Sub => match index text (p0 pos), index pattern (p1 pos) with
                | Some a, Some b => negb (a =? b)
                | _, _ => false
                end
       | _ => true
       end) && bases_consistent text pattern (pos_add pos (delta o)) r
  end.

(** The text bytes carried by a list of [CigarOpChars]. *)
Definition text_side (out : list OpChars.CigarOpChars) : list u8 :=
  flat_map (fun ch => match ch with
                      | OpChars.Match a | OpChars.Sub a _ | OpChars.Del a => [a]
                      | OpChars.Ins _ => []
                      end) out.

(** ** Generic lemmas *)

Lemma CigarOp_eqb_spec (a b : CigarOp) : CigarOp_eqb a b = true <-> a = b.
Proof. destruct a, b; simpl; split; congruence. Qed.

Lemma CigarOp_eqb_refl (a : CigarOp) : CigarOp_eqb a a = true.
Proof. destruct a; reflexivity. Qed.

Lemma Pos_eta (a : Pos) : a = MkPos (p0 a) (p1 a).
Proof. destruct a; reflexivity. Qed.

Ltac pos_eq := repeat match goal with a : Pos |- _ => destruct a end;
               unfold pos_add, pos_mul, pos_sub in *; simpl in *; f_equal; lia.

Lemma push_elem_ops_cons (a : CigarElem) (t : list CigarElem) (e : CigarElem) :
  t <> [] -> push_elem_ops (a :: t) e = a :: push_elem_ops t e.
Proof. destruct t; [congruence | reflexivity]. Qed.

Lemma push_elem_ops_snoc (l : list CigarElem) (s e : CigarElem) :
  push_elem_ops (l ++ [s]) e =
  l ++ (if CigarOp_eqb (op s) (op e) then [MkElem (op s) (cnt s + cnt e)] else [s; e]).
Proof.
  induction l as [|a l IH]; [reflexivity|].
  simpl app. rewrite push_elem_ops_cons by (destruct l; discriminate).
  rewrite IH. reflexivity.
Qed.

Lemma push_elem_ops_nil (e : CigarElem) : push_elem_ops [] e = [e].
Proof. reflexivity. Qed.

(** The first element of a non-empty vector keeps its op under [push_elem]. *)
Lemma push_elem_ops_head (x : CigarElem) (t : list CigarElem) (e : CigarElem) :
  exists y r, push_elem_ops (x :: t) e = y :: r /\ op y = op x.
Proof.
  destruct t as [|z t].
  - simpl. destruct (CigarOp_eqb (op x) (op e)); eauto.
  - simpl. eauto.
Qed.

Lemma coalesced_cons (a b : CigarElem) (t : list CigarElem) :
  coalesced (a :: b :: t) = negb (CigarOp_eqb (op a) (op b)) && coalesced (b :: t).
Proof. reflexivity. Qed.

Lemma coalesced_push_elem_ops (l : list CigarElem) (e : CigarElem) :
  coalesced l = true -> coalesced (push_elem_ops l e) = true.
Proof.
  induction l as [|a t IH]; intros H; [reflexivity|].
  destruct t as [|b t].
  - simpl. destruct (CigarOp_eqb (op a) (op e)) eqn:E; simpl; [reflexivity|].
    rewrite E. reflexivity.
  - rewrite coalesced_cons in H. apply andb_true_iff in H as [Hab Ht].
    change (push_elem_ops (a :: b :: t) e) with (a :: push_elem_ops (b :: t) e).
    destruct (push_elem_ops_head b t e) as (y & r & Ey & Hy).
    rewrite Ey, coalesced_cons, Hy, Hab, <- Ey. cbn [andb]. apply IH. exact Ht.
Qed.

(** [chunk_ops cur n l] starts with a run of [cur], is coalesced, and expands
    to [n] copies of [cur] followed by [l]. *)
Lemma chunk_ops_spec (l : list CigarOp) : forall (cur : CigarOp) (n : nat),
  (exists m r, chunk_ops cur n l = MkElem cur m :: r) /\
  coalesced (chunk_ops cur n l) = true /\
  expand (chunk_ops cur n l) = repeat cur n ++ l.
Proof.
  induction l as [|o t IH]; intros cur n.
  - simpl. unfold expand. simpl. rewrite Nat2Z.id, app_nil_r. eauto.
  - simpl. destruct (CigarOp_eqb o cur) eqn:E.
    + apply CigarOp_eqb_spec in E. subst o.
      destruct (IH cur (S n)) as (Hh & Hc & He). split; [exact Hh|]. split; [exact Hc|].
      rewrite He. change (repeat cur (S n)) with (cur :: repeat cur n).
      rewrite repeat_cons, <- app_assoc. reflexivity.
    + destruct (IH o 1%nat) as ((m & r & Hh) & Hc & He). split; [eauto|]. split.
      * rewrite Hh in *. rewrite coalesced_cons. simpl.
        replace (CigarOp_eqb cur o) with false; [exact Hc|].
        destruct cur, o; simpl in *; congruence.
      * change (expand (MkElem cur (Z.of_nat n) :: chunk_ops o 1 t))
          with (repeat cur (Z.to_nat (Z.of_nat n)) ++ expand (chunk_ops o 1 t)).
        rewrite He, Nat2Z.id. reflexivity.
Qed.

Lemma from_ops_spec (l : list CigarOp) :
  coalesced (ops (from_ops l)) = true /\ expand (ops (from_ops l)) = l.
Proof.
  destruct l as [|o t]; [split; reflexivity|].
  destruct (chunk_ops_spec t o 1%nat) as (_ & Hc & He). simpl. split; [exact Hc|].
  rewrite He. reflexivity.
Qed.

(** ** Claims *)

(** C8: run-coalescing is preserved by [push], [push_elem] and [push_matches]
    on a coalesced Cigar, and [from_ops] yields a coalesced Cigar whose
    per-base expansion is the input op stream (only consecutive equal ops
    are merged; nothing is reordered). *)
Theorem C8_coalescing_preserved (c : Cigar) (o : CigarOp) (e : CigarElem) (n : I)
    (l : list CigarOp) (Hc : coalesced (ops c) = true) :
  coalesced (ops (push c o)) = true /\
  coalesced (ops (push_elem c e)) = true /\
  coalesced (ops (push_matches c n)) = true /\
  coalesced (ops (from_ops l)) = true /\ expand (ops (from_ops l)) = l.
Proof.
  unfold push, push_matches, push_elem; simpl.
  split; [apply coalesced_push_elem_ops; exact Hc|].
  split; [apply coalesced_push_elem_ops; exact Hc|].
  split; [apply coalesced_push_elem_ops; exact Hc|].
  apply from_ops_spec.
Qed.

Lemma C8_witness :
  coalesced (ops (MkCigar [MkElem Match 2; MkElem Ins 1])) = true /\
  coalesced (ops (push (MkCigar [MkElem Match 2; MkElem Ins 1]) Ins)) = true /\
  coalesced (ops (push_elem (MkCigar [MkElem Match 2; MkElem Ins 1]) (MkElem Del 3))) = true /\
  coalesced (ops (push_matches (MkCigar [MkElem Match 2; MkElem Ins 1]) 4)) = true /\
  coalesced (ops (from_ops [Match; Match; Sub; Match])) = true /\
  expand (ops (from_ops [Match; Match; Sub; Match])) = [Match; Match; Sub; Match].
Proof.
  split; [reflexivity|].
  apply (C8_coalescing_preserved (MkCigar [MkElem Match 2; MkElem Ins 1]) Ins
           (MkElem Del 3) 4 [Match; Match; Sub; Match]).
  reflexivity.
Defined.

(** C1 (defect): [verify] adds the whole run's delta to [pos] before the
    [Match]/[Sub] loops and never advances inside them, so every base of a
    run is compared at the position just past the run. With text ["a"] and
    pattern ["b"], the run [1X] (bytes differ) is rejected with
    [SubEquality], and the run [1=] (bytes differ) is accepted. *)
Theorem C1_verify_checks_past_the_run (cm : CostModel) :
  verify (MkCigar [MkElem Sub 1]) cm (bytes "a") (bytes "b") = Err SubEquality /\
  verify (MkCigar [MkElem Match 1]) cm (bytes "a") (bytes "b") = Ok 0.
Proof. split; reflexivity. Qed.

(** C9 (defect): on the empty string, [split_inclusive] yields no slice, so
    the [expect("Cigar string cannot be empty")] never runs and
    [from_string("")] returns the empty Cigar instead of panicking. *)
Theorem C9_from_string_empty_is_accepted :
  from_string [] = Some (MkCigar []).
Proof. reflexivity. Qed.

(** ** Lemmas on the textual encoding *)

Lemma coalesced_tail (x : CigarElem) (t : list CigarElem) :
  coalesced (x :: t) = true -> coalesced t = true.
Proof. destruct t; [reflexivity|]. rewrite coalesced_cons. intros H; apply andb_true_iff in H; tauto. Qed.

Lemma coalesced_mid (l1 : list CigarElem) (s e : CigarElem) (l2 : list CigarElem) :
  coalesced (l1 ++ s :: e :: l2) = true -> CigarOp_eqb (op s) (op e) = false.
Proof.
  induction l1 as [|x l1 IH]; intros H.
  - rewrite app_nil_l, coalesced_cons in H. apply andb_true_iff in H as [H _].
    destruct (CigarOp_eqb (op s) (op e)); [discriminate|reflexivity].
  - apply IH. apply (coalesced_tail x). exact H.
Qed.

Lemma fold_push_elem_coalesced (l : list CigarElem) : forall acc : list CigarElem,
  coalesced (acc ++ l) = true -> fold_left push_elem l (MkCigar acc) = MkCigar (acc ++ l).
Proof.
  induction l as [|e l IH]; intros acc H; simpl.
  - rewrite app_nil_r. reflexivity.
  - unfold push_elem at 2; simpl.
    assert (Hp : push_elem_ops acc e = acc ++ [e]).
    { destruct acc as [|x acc']; [reflexivity|].
      destruct (exists_last (l := x :: acc') ltac:(discriminate)) as (a' & s & Ea).
      rewrite Ea in *.
      rewrite push_elem_ops_snoc.
      rewrite <- app_assoc in H. simpl in H. rewrite (coalesced_mid a' s e l H).
      rewrite <- app_assoc. reflexivity. }
    rewrite Hp, IH; [rewrite <- app_assoc; reflexivity|].
    rewrite <- app_assoc. exact H.
Qed.

Lemma digits_value_snoc (l : list u8) (d : u8) :
  digits_value (l ++ [d]) = digits_value l * 10 + (d - 48).
Proof. unfold digits_value. rewrite fold_left_app. reflexivity. Qed.

Lemma digits_fuel_S (f : nat) (n : Z) :
  digits_fuel (S f) n =
  if n <? 10 then [48 + n] else digits_fuel f (n / 10) ++ [48 + n mod 10].
Proof. reflexivity. Qed.

Lemma digits_fuel_spec (fuel : nat) : forall n : Z, 0 <= n < Z.of_nat fuel ->
  forallb is_ascii_digit (digits_fuel fuel n) = true /\
  digits_fuel fuel n <> [] /\
  digits_value (digits_fuel fuel n) = n.
Proof.
  induction fuel as [|f IH]; intros n Hn; [lia|].
  rewrite digits_fuel_S. destruct (n <? 10) eqn:E.
  - apply Z.ltb_lt in E. unfold digits_value. cbn [fold_left forallb].
    unfold is_ascii_digit.
    repeat split; [|discriminate|lia].
    rewrite andb_true_r. apply andb_true_iff; split; apply Z.leb_le; lia.
  - apply Z.ltb_ge in E.
    assert (Hq : 0 <= n / 10 < Z.of_nat f).
    { split; [apply Z.div_pos; lia|].
      assert (n / 10 < n) by (apply Z.div_lt; lia). lia. }
    destruct (IH (n / 10) Hq) as (Hd & _ & Hv).
    assert (Hm := Z.mod_pos_bound n 10 ltac:(lia)).
    rewrite forallb_app, Hd, digits_value_snoc, Hv. cbn [forallb andb].
    repeat split.
    + unfold is_ascii_digit. rewrite andb_true_r.
      apply andb_true_iff; split; apply Z.leb_le; lia.
    + destruct (digits_fuel f (n / 10)); discriminate.
    + pose proof (Z.div_mod n 10 ltac:(lia)). lia.
Qed.

Lemma show_I_spec (n : I) : 0 <= n ->
  forallb is_ascii_digit (show_I n) = true /\ show_I n <> [] /\
  digits_value (show_I n) = n.
Proof.
  intros Hn. unfold show_I. replace (n <? 0) with false by (symmetry; apply Z.ltb_ge; lia).
  apply digits_fuel_spec. lia.
Qed.

Lemma split_inclusive_go_app (pred : u8 -> bool) (l1 : list u8) :
  forall (cur : list u8) (x : u8) (rest : list u8),
  forallb (fun b => negb (pred b)) l1 = true -> pred x = true ->
  split_inclusive_go pred cur (l1 ++ x :: rest) =
  (cur ++ l1 ++ [x]) :: split_inclusive_go pred [] rest.
Proof.
  induction l1 as [|y l1 IH]; intros cur x rest H Hx; simpl.
  - rewrite Hx. reflexivity.
  - simpl in H. apply andb_true_iff in H as [Hy H].
    destruct (pred y); [discriminate|].
    rewrite IH by assumption. rewrite <- app_assoc. reflexivity.
Qed.

Lemma split_last_snoc (l : list u8) (x : u8) : split_last (l ++ [x]) = Some (x, l).
Proof. unfold split_last. rewrite rev_app_distr. simpl. rewrite rev_involutive. reflexivity. Qed.

Lemma op_char_not_digit (ch : u8) : In ch [77; 61; 88; 73; 68] -> is_ascii_digit ch = false.
Proof. simpl. intros H. repeat destruct H as [<-|H]; try reflexivity. contradiction. Qed.

Lemma parse_piece_token (t : list u8 * u8) : token_ok t ->
  parse_piece (token_bytes t) = Some (spec_token t).
Proof.
  destruct t as [ds ch]. unfold token_ok, token_bytes, spec_token; simpl.
  intros (_ & Hch & Hv). unfold parse_piece. rewrite split_last_snoc.
  assert (Ho : CigarOp_from_u8 ch = Some (spec_op_of_char ch)).
  { simpl in Hch. repeat destruct Hch as [<-|Hch]; try reflexivity. contradiction. }
  destruct ds as [|d ds'].
  - rewrite Ho. reflexivity.
  - unfold parse_I. replace (digits_value (d :: ds') <=? i32_max) with true
      by (symmetry; apply Z.leb_le; exact Hv).
    rewrite Ho. reflexivity.
Qed.

Lemma from_string_tokens (toks : list (list u8 * u8)) : forall c : Cigar,
  Forall token_ok toks ->
  from_string_go c (split_inclusive (fun b => negb (is_ascii_digit b))
                      (flat_map token_bytes toks))
  = Some (fold_left push_elem (map spec_token toks) c).
Proof.
  induction toks as [|t toks IH]; intros c H; [reflexivity|].
  inversion H as [|? ? Ht Hs]; subst.
  simpl flat_map. unfold token_bytes at 1. rewrite <- app_assoc. simpl app.
  unfold split_inclusive. rewrite split_inclusive_go_app.
  - simpl. fold (token_bytes t). rewrite parse_piece_token by exact Ht.
    apply IH. exact Hs.
  - destruct Ht as (Hd & _). rewrite forallb_forall in *.
    intros b Hb. rewrite (Hd b Hb). reflexivity.
  - destruct Ht as (_ & Hch & _). rewrite (op_char_not_digit _ Hch). reflexivity.
Qed.

Lemma to_string_tokens (c : Cigar) :
  to_string c = flat_map token_bytes (map (fun e => (show_I (cnt e), to_char (op e))) (ops c)).
Proof.
  unfold to_string. induction (ops c) as [|e l IH]; [reflexivity|].
  simpl. rewrite IH. reflexivity.
Qed.

Lemma to_char_table (o : CigarOp) :
  In (to_char o) [77; 61; 88; 73; 68] /\ spec_op_of_char (to_char o) = o.
Proof. destruct o; simpl; intuition. Qed.

(** C3: on a coalesced Cigar whose counts are at least 1 (and, being [i32],
    at most [i32::MAX]), [from_string] inverts [to_string]. *)
Theorem C3_from_string_to_string (c : Cigar) (Hc : coalesced (ops c) = true)
    (Hn : Forall (fun e => 1 <= cnt e <= i32_max) (ops c)) :
  from_string (to_string c) = Some c.
Proof.
  rewrite to_string_tokens. unfold from_string. rewrite from_string_tokens.
  - rewrite map_map.
    replace (map (fun e => spec_token (show_I (cnt e), to_char (op e))) (ops c)) with (ops c).
    + rewrite (fold_push_elem_coalesced (ops c) [] Hc). destruct c; reflexivity.
    + clear Hc. induction Hn as [|e l He Hl IH]; [reflexivity|].
      simpl. rewrite <- IH. f_equal.
      destruct (show_I_spec (cnt e) ltac:(lia)) as (_ & Hne & Hv).
      destruct (to_char_table (op e)) as (_ & Ho).
      unfold spec_token; simpl. rewrite Ho.
      destruct (show_I (cnt e)); [congruence|]. rewrite Hv. destruct e; reflexivity.
  - clear Hc. induction Hn as [|e l He Hl IH]; constructor; [|exact IH].
    destruct (show_I_spec (cnt e) ltac:(lia)) as (Hd & _ & Hv).
    unfold token_ok; simpl. split; [exact Hd|]. split; [apply to_char_table|lia].
Qed.

Lemma C3_witness :
  coalesced (ops (MkCigar [MkElem Ins 12; MkElem Match 2; MkElem Del 1])) = true /\
  Forall (fun e => 1 <= cnt e <= i32_max) (ops (MkCigar [MkElem Ins 12; MkElem Match 2; MkElem Del 1])) /\
  from_string (to_string (MkCigar [MkElem Ins 12; MkElem Match 2; MkElem Del 1]))
  = Some (MkCigar [MkElem Ins 12; MkElem Match 2; MkElem Del 1]).
Proof.
  assert (Hc : coalesced (ops (MkCigar [MkElem Ins 12; MkElem Match 2; MkElem Del 1])) = true)
    by reflexivity.
  assert (Hn : Forall (fun e => 1 <= cnt e <= i32_max)
                 (ops (MkCigar [MkElem Ins 12; MkElem Match 2; MkElem Del 1]))).
  { simpl. repeat constructor; unfold i32_max; simpl; lia. }
  split; [exact Hc|]. split; [exact Hn|].
  apply (C3_from_string_to_string _ Hc Hn).
Defined.

(** ** Lemmas on [verify] *)

Lemma verify_match_loop_cases (n : nat) (text pattern : Seq) (pos : Pos) :
  verify_match_loop n text pattern pos = Ok tt \/
  verify_match_loop n text pattern pos = Err MatchMismatch.
Proof.
  induction n as [|n IH]; simpl; [auto|].
  destruct (negb _); auto.
Qed.

Lemma verify_sub_loop_cases (n : nat) (cm : CostModel) (text pattern : Seq) (pos : Pos) :
  forall cost : Cost,
  verify_sub_loop n cm text pattern pos cost = Ok (cost + Z.of_nat n * sub cm) \/
  verify_sub_loop n cm text pattern pos cost = Err SubEquality.
Proof.
  induction n as [|n IH]; intros cost; cbn [verify_sub_loop].
  - left. f_equal. simpl. ring.
  - destruct (opt_u8_eqb _ _); [auto|].
    destruct (IH (cost + sub cm)) as [-> | ->]; [left | right];
      [f_equal; rewrite Nat2Z.inj_succ; ring | reflexivity].
Qed.

(** The element loop of [verify] ends, when it does not fail, at the summed
    delta with the summed cost; it fails only with a byte-check error. *)
Lemma verify_elems_spec (cm : CostModel) (text pattern : Seq) (els : list CigarElem) :
  forall (pos : Pos) (cost : Cost),
  match verify_elems cm text pattern pos cost els with
  | Ok (pos', cost') => pos' = pos_add pos (sum_delta els) /\ cost' = cost + total_cost cm els
  | Err e => e = MatchMismatch \/ e = SubEquality
  end.
Proof.
  induction els as [|[o n] els IH]; intros pos cost; simpl.
  - split; [pos_eq | lia].
  - destruct o.
    + destruct (verify_match_loop_cases (Z.to_nat n) text pattern
                  (pos_add pos (pos_mul (delta Match) n))) as [-> | ->]; [|auto].
      specialize (IH (pos_add pos (pos_mul (delta Match) n)) cost).
      destruct (verify_elems _ _ _ _ _ els) as [[pos' cost']|e]; [|exact IH].
      destruct IH as [-> ->]. unfold elem_cost; simpl. split; [pos_eq | lia].
    + destruct (verify_sub_loop_cases (Z.to_nat n) cm text pattern
                  (pos_add pos (pos_mul (delta Sub) n)) cost) as [-> | ->]; [|auto].
      specialize (IH (pos_add pos (pos_mul (delta Sub) n)) (cost + Z.of_nat (Z.to_nat n) * sub cm)).
      destruct (verify_elems _ _ _ _ _ els) as [[pos' cost']|e]; [|exact IH].
      destruct IH as [-> ->]. unfold elem_cost; simpl. split; [pos_eq | lia].
    + specialize (IH (pos_add pos (pos_mul (delta Del) n)) (cost + (open cm + n * extend cm))).
      destruct (verify_elems _ _ _ _ _ els) as [[pos' cost']|e]; [|exact IH].
      destruct IH as [-> ->]. unfold elem_cost; simpl. split; [pos_eq | lia].
    + specialize (IH (pos_add pos (pos_mul (delta Ins) n)) (cost + (open cm + n * extend cm))).
      destruct (verify_elems _ _ _ _ _ els) as [[pos' cost']|e]; [|exact IH].
      destruct IH as [-> ->]. unfold elem_cost; simpl. split; [pos_eq | lia].
Qed.

Lemma Pos_eqb_spec (a b : Pos) : Pos_eqb a b = true <-> a = b.
Proof.
  destruct a, b; unfold Pos_eqb; simpl. rewrite andb_true_iff, !Z.eqb_eq.
  split; [intros [-> ->]; reflexivity | intros H; inversion H; auto].
Qed.

Lemma pos_add_0_l (a : Pos) : pos_add (MkPos 0 0) a = a.
Proof. destruct a; unfold pos_add; simpl; reflexivity. Qed.

(** C2 (as amended): [verify] returns a value of its result type on every
    input (it has no panicking path in this model, where i32 overflow is
    not represented). On success the summed delta is the target and the
    cost is the summed run cost ([sub] per Sub base, [open + L * extend] per
    Ins/Del run of length [L]). When the summed delta is not the target,
    [verify] fails: with [LengthMismatch] when its element loop completes,
    otherwise with the [MatchMismatch] or [SubEquality] error of that loop,
    which is checked first. *)
Theorem C2_verify_length_and_cost (c : Cigar) (cm : CostModel) (text pattern : Seq) :
  (forall cost, verify c cm text pattern = Ok cost ->
     sum_delta (ops c) = MkPos (Z.of_nat (List.length text)) (Z.of_nat (List.length pattern)) /\
     cost = total_cost cm (ops c)) /\
  (sum_delta (ops c) <> MkPos (Z.of_nat (List.length text)) (Z.of_nat (List.length pattern)) ->
     match verify_elems cm text pattern (MkPos 0 0) 0 (ops c) with
     | Ok _ => verify c cm text pattern = Err LengthMismatch
     | Err e => verify c cm text pattern = Err e /\ (e = MatchMismatch \/ e = SubEquality)
     end).
Proof.
  pose proof (verify_elems_spec cm text pattern (ops c) (MkPos 0 0) 0) as Hs.
  unfold verify. split.
  - intros cost. destruct (verify_elems _ _ _ _ _ _) as [[pos cost']|e]; [|discriminate].
    destruct Hs as [-> ->]. rewrite pos_add_0_l.
    destruct (Pos_eqb _ _) eqn:E; [|discriminate].
    apply Pos_eqb_spec in E. intros H; inversion H; subst. split; [exact E | lia].
  - intros Hne. destruct (verify_elems _ _ _ _ _ _) as [[pos cost']|e]; [|auto].
    destruct Hs as [-> ->]. rewrite pos_add_0_l.
    destruct (Pos_eqb _ _) eqn:E; [|reflexivity].
    apply Pos_eqb_spec in E. contradiction.
Qed.

Lemma C2_witness :
  sum_delta (ops (MkCigar [MkElem Match 1; MkElem Ins 2])) <> MkPos 1 1 /\
  verify (MkCigar [MkElem Match 1; MkElem Ins 2]) (MkCostModel 1 2 3) (bytes "a") (bytes "a")
    = Err LengthMismatch /\
  verify (MkCigar [MkElem Sub 1; MkElem Ins 2]) (MkCostModel 1 2 3) (bytes "a") (bytes "bcd")
    = Ok (total_cost (MkCostModel 1 2 3) [MkElem Sub 1; MkElem Ins 2]).
Proof.
  assert (Hne : sum_delta (ops (MkCigar [MkElem Match 1; MkElem Ins 2])) <> MkPos 1 1)
    by (simpl; discriminate).
  split; [exact Hne|]. split.
  - exact (proj2 (C2_verify_length_and_cost (MkCigar [MkElem Match 1; MkElem Ins 2])
                    (MkCostModel 1 2 3) (bytes "a") (bytes "a")) Hne).
  - reflexivity.
Defined.

(** C2 (as stated, refuted): the run [1X] on two empty sequences ends at
    (1,1), not at the target (0,0), yet [verify] fails with [SubEquality],
    not with the length-mismatch failure: the byte check of the Sub run comes
    first. *)
Lemma C2_counterexample :
  sum_delta (ops (MkCigar [MkElem Sub 1])) <> MkPos 0 0 /\
  verify (MkCigar [MkElem Sub 1]) (MkCostModel 1 0 1) [] [] = Err SubEquality.
Proof. split; [simpl; discriminate | reflexivity]. Qed.

(** ** Lemmas on [to_path_with_costs] *)

Lemma map_seq_succ {A : Type} (f : nat -> A) (n : nat) :
  map f (seq 1 (S n)) = f 1%nat :: map (fun k => f (S k)) (seq 1 n).
Proof. simpl. f_equal. rewrite <- seq_shift, map_map. reflexivity. Qed.

Lemma twc_match_spec (n : nat) (d : Pos) (cost : Cost) : forall pos : Pos,
  twc_match n d pos cost =
  (map (fun k => (pos_add pos (pos_mul d (Z.of_nat k)), cost)) (seq 1 n),
   pos_add pos (pos_mul d (Z.of_nat n))).
Proof.
  induction n as [|n IH]; intros pos; cbn [twc_match].
  - f_equal. pos_eq.
  - rewrite IH, map_seq_succ. f_equal; [f_equal; [f_equal; pos_eq|]|pos_eq].
    apply map_ext. intros k. f_equal. pos_eq.
Qed.

Lemma twc_sub_spec (n : nat) (cm : CostModel) (d : Pos) : forall (pos : Pos) (cost : Cost),
  twc_sub n cm d pos cost =
  (map (fun k => (pos_add pos (pos_mul d (Z.of_nat k)), cost + Z.of_nat k * sub cm)) (seq 1 n),
   pos_add pos (pos_mul d (Z.of_nat n)), cost + Z.of_nat n * sub cm).
Proof.
  induction n as [|n IH]; intros pos cost; cbn [twc_sub].
  - f_equal; [f_equal; pos_eq | simpl; ring].
  - rewrite IH, map_seq_succ. apply (f_equal2 pair); [apply (f_equal2 pair)|].
    + apply (f_equal2 cons); [apply (f_equal2 pair); [pos_eq | rewrite Z.mul_1_l; reflexivity] |].
      apply map_ext. intros k. apply (f_equal2 pair); [pos_eq | rewrite Nat2Z.inj_succ; ring].
    + pos_eq.
    + rewrite Nat2Z.inj_succ; ring.
Qed.

Lemma twc_gap_spec (n : nat) (g : I -> Cost) (d : Pos) (cost : Cost) :
  forall (len : I) (pos : Pos),
  twc_gap n g len d pos cost =
  (map (fun k => (pos_add pos (pos_mul d (Z.of_nat k)), cost + g (len - 1 + Z.of_nat k)))
     (seq 1 n),
   pos_add pos (pos_mul d (Z.of_nat n))).
Proof.
  induction n as [|n IH]; intros len pos; cbn [twc_gap].
  - f_equal. pos_eq.
  - rewrite IH, map_seq_succ. apply (f_equal2 pair).
    + apply (f_equal2 cons); [apply (f_equal2 pair); [pos_eq | apply (f_equal2 Z.add); [reflexivity | apply f_equal; lia]] |].
      apply map_ext. intros k.
      apply (f_equal2 pair); [pos_eq | apply (f_equal2 Z.add); [reflexivity | apply f_equal; lia]].
    + pos_eq.
Qed.

Lemma twc_go_spec (cm : CostModel) (els : list CigarElem) : forall (pos : Pos) (cost : Cost),
  twc_go cm pos cost els = spec_trace cm pos cost els.
Proof.
  induction els as [|[o n] els IH]; intros pos cost; [reflexivity|].
  destruct o; cbn [twc_go spec_trace spec_run op cnt fst snd].
  - rewrite twc_match_spec, IH. reflexivity.
  - rewrite twc_sub_spec, IH. reflexivity.
  - rewrite twc_gap_spec, IH. unfold del. reflexivity.
  - rewrite twc_gap_spec, IH. unfold ins. reflexivity.
Qed.

(** ** Lemmas on [from_path] *)

Lemma from_delta_none (d : Pos) :
  from_delta d = None <-> ~ In d [MkPos 1 1; MkPos 1 0; MkPos 0 1].
Proof.
  destruct d as [x y]; unfold from_delta; simpl.
  destruct x as [|[p|p|]|p]; destruct y as [|[q|q|]|q];
    simpl; split; intros H; try discriminate; try reflexivity;
    try (intros H'; repeat destruct H' as [H'|H']; congruence);
    exfalso; apply H; auto.
Qed.

Lemma path_elems_none (w : list (Pos * Pos)) (a b : Pos) :
  In (a, b) w -> from_delta (pos_sub b a) = None -> path_elems w = None.
Proof.
  induction w as [|[x y] w IH]; intros Hin Hd; [destruct Hin|].
  simpl. destruct Hin as [Heq|Hin].
  - inversion Heq; subst. rewrite Hd. reflexivity.
  - rewrite (IH Hin Hd). destruct (from_delta (pos_sub y x)); reflexivity.
Qed.

Lemma path_elems_some (w : list (Pos * Pos)) :
  (forall a b, In (a, b) w -> from_delta (pos_sub b a) <> None) ->
  exists els, path_elems w = Some els /\
    Forall2 (fun ab e => from_delta (pos_sub (snd ab) (fst ab)) = Some (op e) /\ cnt e = 1) w els.
Proof.
  induction w as [|[x y] w IH]; intros H; [exists []; split; constructor|].
  destruct (from_delta (pos_sub y x)) as [o|] eqn:Ho; [|exfalso; apply (H x y); simpl; auto].
  destruct IH as (els & He & Hf); [intros a b Hin; apply H; simpl; auto|].
  exists (MkElem o 1 :: els). simpl. rewrite Ho, He. split; [reflexivity|].
  constructor; [simpl; auto|exact Hf].
Qed.

(** C6: [from_path] fails (panics) when the path does not start at (0,0),
    and when some step's delta is none of (1,1), (1,0), (0,1); otherwise it
    resolves one unit-count element per step, whose op is the one of the
    step's delta. *)
Theorem C6_from_path_preconditions (text pattern : Seq) (path : list Pos) :
  (hd_error path <> Some (MkPos 0 0) -> from_path text pattern path = None) /\
  (forall a b, In (a, b) (windows path) ->
     ~ In (pos_sub b a) [MkPos 1 1; MkPos 1 0; MkPos 0 1] ->
     from_path text pattern path = None) /\
  (hd_error path = Some (MkPos 0 0) ->
   (forall a b, In (a, b) (windows path) ->
      In (pos_sub b a) [MkPos 1 1; MkPos 1 0; MkPos 0 1]) ->
   exists els,
     Forall2 (fun ab e => from_delta (pos_sub (snd ab) (fst ab)) = Some (op e) /\ cnt e = 1)
       (windows path) els /\
     from_path text pattern path = resolve_matches els text pattern).
Proof.
  split; [|split].
  - intros H. destruct path as [|first rest]; [reflexivity|]. simpl in H |- *.
    destruct (Pos_eqb first (MkPos 0 0)) eqn:E; [|reflexivity].
    apply Pos_eqb_spec in E. subst. contradiction.
  - intros a b Hin Hd. apply from_delta_none in Hd.
    unfold from_path. rewrite (path_elems_none _ a b Hin Hd).
    destruct path; [reflexivity|]. destruct (negb _); reflexivity.
  - intros Hh Hv. destruct (path_elems_some (windows path)) as (els & He & Hf).
    { intros a b Hin Hd. apply from_delta_none in Hd. exact (Hd (Hv a b Hin)). }
    exists els. split; [exact Hf|].
    destruct path as [|first rest]; [discriminate|]. simpl in Hh. inversion Hh; subst.
    unfold from_path. rewrite He. reflexivity.
Qed.

Lemma C6_witness :
  hd_error [MkPos 1 0; MkPos 1 1] <> Some (MkPos 0 0) /\
  from_path (bytes "a") (bytes "a") [MkPos 1 0; MkPos 1 1] = None /\
  In (MkPos 0 0, MkPos 2 1) (windows [MkPos 0 0; MkPos 2 1]) /\
  ~ In (pos_sub (MkPos 2 1) (MkPos 0 0)) [MkPos 1 1; MkPos 1 0; MkPos 0 1] /\
  from_path (bytes "aa") (bytes "a") [MkPos 0 0; MkPos 2 1] = None /\
  hd_error [MkPos 0 0; MkPos 1 1; MkPos 1 2] = Some (MkPos 0 0) /\
  exists els,
    Forall2 (fun ab e => from_delta (pos_sub (snd ab) (fst ab)) = Some (op e) /\ cnt e = 1)
      (windows [MkPos 0 0; MkPos 1 1; MkPos 1 2]) els /\
    from_path (bytes "a") (bytes "bc") [MkPos 0 0; MkPos 1 1; MkPos 1 2]
    = resolve_matches els (bytes "a") (bytes "bc").
Proof.
  assert (H1 : hd_error [MkPos 1 0; MkPos 1 1] <> Some (MkPos 0 0)) by (simpl; congruence).
  assert (H2 : In (MkPos 0 0, MkPos 2 1) (windows [MkPos 0 0; MkPos 2 1])) by (simpl; auto).
  assert (H3 : ~ In (pos_sub (MkPos 2 1) (MkPos 0 0)) [MkPos 1 1; MkPos 1 0; MkPos 0 1]).
  { apply from_delta_none. reflexivity. }
  assert (H4 : hd_error [MkPos 0 0; MkPos 1 1; MkPos 1 2] = Some (MkPos 0 0)) by reflexivity.
  split; [exact H1|]. split.
  { exact (proj1 (C6_from_path_preconditions (bytes "a") (bytes "a") _) H1). }
  split; [exact H2|]. split; [exact H3|]. split.
  { exact (proj1 (proj2 (C6_from_path_preconditions (bytes "aa") (bytes "a") _)) _ _ H2 H3). }
  split; [exact H4|].
  apply (proj2 (proj2 (C6_from_path_preconditions (bytes "a") (bytes "bc") _)) H4).
  intros a b Hin. simpl in Hin.
  destruct Hin as [Hin|[Hin|[]]]; inversion Hin; subst; simpl; auto.
Defined.

(** ** Lemmas on [ScoreModel] *)

Import ScoreModel.

Lemma wrap_shift (z k : Z) : wrap_i32 (z + 2 ^ 32 * k) = wrap_i32 z.
Proof.
  unfold wrap_i32. f_equal.
  replace (z + 2 ^ 32 * k + 2 ^ 31) with (z + 2 ^ 31 + k * 2 ^ 32) by ring.
  apply Z_mod_plus_full.
Qed.

Lemma wrap_ex (z : Z) : exists q, wrap_i32 z = z + 2 ^ 32 * q.
Proof.
  exists (- ((z + 2 ^ 31) / 2 ^ 32)). unfold wrap_i32.
  rewrite (Z.mod_eq (z + 2 ^ 31) (2 ^ 32)) by lia. ring.
Qed.

Lemma wrap_small (z : Z) : i32_min <= z <= i32_max -> wrap_i32 z = z.
Proof.
  unfold wrap_i32, i32_min, i32_max. intros H.
  rewrite Z.mod_small by lia. ring.
Qed.

Lemma wrap_lin (a v c : Z) : wrap_i32 (a + wrap_i32 v * c) = wrap_i32 (a + v * c).
Proof.
  destruct (wrap_ex v) as [q ->].
  replace (a + (v + 2 ^ 32 * q) * c) with (a + v * c + 2 ^ 32 * (q * c)) by ring.
  apply wrap_shift.
Qed.

Lemma wrap_wrap_l (a b : Z) : wrap_i32 (wrap_i32 a + b) = wrap_i32 (a + b).
Proof.
  replace (wrap_i32 a + b) with (b + wrap_i32 a * 1) by ring.
  rewrite wrap_lin; f_equal; ring.
Qed.

Lemma wrap_wrap_r (a b : Z) : wrap_i32 (a + wrap_i32 b) = wrap_i32 (a + b).
Proof.
  replace (a + wrap_i32 b) with (a + wrap_i32 b * 1) by ring.
  rewrite wrap_lin; f_equal; ring.
Qed.

Lemma wrap_wrap_mul (a b : Z) : wrap_i32 (wrap_i32 a * b) = wrap_i32 (a * b).
Proof.
  replace (wrap_i32 a * b) with (0 + wrap_i32 a * b) by ring.
  rewrite wrap_lin; f_equal; ring.
Qed.


(** C7 (as amended): for a cost [X = x * sub + g * open + b * extend] with
    [factor * X] within [i32], the score of the alignment under
    [from_costs cm], passed to [global_cost] with sequence lengths summing
    to [2 * (m + x) + b], passes the divisibility assertion and yields [X].
    The i32 arithmetic of both functions wraps around. *)
Theorem C7_global_cost_recovers_cost (cm : CostModel) (m x g b la lb : Z)
    (Hlen : la + lb = 2 * (m + x) + b)
    (Hrange : i32_min <= ScoreModel.factor (ScoreModel.from_costs cm) *
                         (x * sub cm + g * open cm + b * extend cm) <= i32_max) :
  ScoreModel.global_cost (ScoreModel.from_costs cm)
    (ScoreModel.alignment_score (ScoreModel.from_costs cm) m x g b) la lb
  = Some (x * sub cm + g * open cm + b * extend cm).
Proof.
  unfold ScoreModel.global_cost, ScoreModel.alignment_score, ScoreModel.from_costs in *.
  cbn [ScoreModel.r_match ScoreModel.sm_sub ScoreModel.sm_open ScoreModel.sm_extend
       ScoreModel.factor] in *.
  set (f := if (sub cm >? 2) && (extend cm >? 1) then 1 else if sub cm =? 1 then 3 else 2) in *.
  assert (Hf : f = 1 \/ f = 2 \/ f = 3)
    by (subst f; destruct (_ && _); [|destruct (_ =? _)]; auto).
  unfold ScoreModel.OFFSET.
  rewrite !wrap_wrap_mul, !wrap_wrap_l, wrap_wrap_r.
  destruct (wrap_ex (- sub cm * f + 1 * 2)) as [q1 ->].
  destruct (wrap_ex (- open cm * f)) as [q2 ->].
  destruct (wrap_ex (- extend cm * f + 1)) as [q3 ->].
  assert (Hl : (la + lb) * 1 = 2 * (m + x) + b) by lia. rewrite Hl.
  match goal with |- context [wrap_i32 ?e] =>
    replace e with (f * (x * sub cm + g * open cm + b * extend cm) +
                    2 ^ 32 * (- (x * q1 + g * q2 + b * q3))) by ring end.
  rewrite wrap_shift, wrap_small by exact Hrange.
  assert (Hf0 : f <> 0) by lia.
  rewrite Z.mul_comm, Z.rem_mul by exact Hf0. simpl.
  rewrite Z.quot_mul by exact Hf0. reflexivity.
Qed.

Lemma C7_witness :
  4 + 3 = 2 * (2 + 1) + 1 /\
  i32_min <= ScoreModel.factor (ScoreModel.from_costs (MkCostModel 4 5 2)) *
             (1 * sub (MkCostModel 4 5 2) + 1 * open (MkCostModel 4 5 2) +
              1 * extend (MkCostModel 4 5 2)) <= i32_max /\
  ScoreModel.global_cost (ScoreModel.from_costs (MkCostModel 4 5 2))
    (ScoreModel.alignment_score (ScoreModel.from_costs (MkCostModel 4 5 2)) 2 1 1 1) 4 3
  = Some (1 * sub (MkCostModel 4 5 2) + 1 * open (MkCostModel 4 5 2) +
          1 * extend (MkCostModel 4 5 2)).
Proof.
  assert (Hl : 4 + 3 = 2 * (2 + 1) + 1) by reflexivity.
  assert (Hr : i32_min <= ScoreModel.factor (ScoreModel.from_costs (MkCostModel 4 5 2)) *
             (1 * sub (MkCostModel 4 5 2) + 1 * open (MkCostModel 4 5 2) +
              1 * extend (MkCostModel 4 5 2)) <= i32_max)
    by (vm_compute; split; discriminate).
  split; [exact Hl|]. split; [exact Hr|].
  exact (C7_global_cost_recovers_cost (MkCostModel 4 5 2) 2 1 1 1 4 3 Hl Hr).
Defined.

(** C7 (as stated, refuted): with the unit cost model ([factor = 3]) and one
    gap of [2^30] bases against lengths [2^30] and [0], the score [-2^31] is
    a valid [i32], but [-score + path_len] wraps around, is not a multiple
    of [3], and the assertion of [global_cost] fails. *)
Lemma C7_counterexample :
  2 ^ 30 + 0 = 2 * (0 + 0) + 2 ^ 30 /\
  ScoreModel.alignment_score (ScoreModel.from_costs CostModel_unit) 0 0 1 (2 ^ 30) = i32_min /\
  ScoreModel.global_cost (ScoreModel.from_costs CostModel_unit)
    (ScoreModel.alignment_score (ScoreModel.from_costs CostModel_unit) 0 0 1 (2 ^ 30))
    (2 ^ 30) 0 = None.
Proof. split; [reflexivity|]. split; vm_compute; reflexivity. Qed.

(** ** Lemmas on [resolve_matches] *)

Lemma sum_delta_app (l1 l2 : list CigarElem) :
  sum_delta (l1 ++ l2) = pos_add (sum_delta l1) (sum_delta l2).
Proof.
  induction l1 as [|e l1 IH]; simpl; [symmetry; apply pos_add_0_l|].
  unfold sum_delta in *. simpl. rewrite IH. pos_eq.
Qed.

Lemma op_count_app (o : CigarOp) (l1 l2 : list CigarElem) :
  op_count o (l1 ++ l2) = op_count o l1 + op_count o l2.
Proof. induction l1 as [|e l1 IH]; simpl; [reflexivity|]. unfold op_count in *. simpl. lia. Qed.

Lemma expand_app (l1 l2 : list CigarElem) : expand (l1 ++ l2) = expand l1 ++ expand l2.
Proof. unfold expand. apply flat_map_app. Qed.

(** What [push_elem] does to the measures of a vector with non-negative
    counts. *)
Lemma push_elem_ops_measures (l : list CigarElem) (e : CigarElem) :
  Forall (fun e => 0 <= cnt e) l -> 0 <= cnt e ->
  Forall (fun e => 0 <= cnt e) (push_elem_ops l e) /\
  expand (push_elem_ops l e) = expand l ++ repeat (op e) (Z.to_nat (cnt e)) /\
  sum_delta (push_elem_ops l e) = pos_add (sum_delta l) (pos_mul (delta (op e)) (cnt e)) /\
  (forall o, op_count o (push_elem_ops l e) =
             op_count o l + (if CigarOp_eqb (op e) o then cnt e else 0)).
Proof.
  intros Hl He. destruct l as [|x l'].
  - unfold expand, sum_delta, op_count. simpl. rewrite app_nil_r.
    repeat split; [constructor; auto | pos_eq | intros o; lia].
  - destruct (exists_last (l := x :: l') ltac:(discriminate)) as (a & s & Ea).
    rewrite Ea in *. rewrite push_elem_ops_snoc.
    apply Forall_app in Hl as [Ha Hs]. inversion Hs as [|? ? Hs0 _]; subst.
    destruct (CigarOp_eqb (op s) (op e)) eqn:E.
    + apply CigarOp_eqb_spec in E.
      rewrite !expand_app, !sum_delta_app. split; [|split; [|split]].
      * apply Forall_app. split; [exact Ha|]. constructor; [simpl; lia|constructor].
      * rewrite <- app_assoc. f_equal. unfold expand; simpl. rewrite !app_nil_r, E.
        rewrite Z2Nat.inj_add by assumption. apply repeat_app.
      * unfold sum_delta; simpl. rewrite E. pos_eq.
      * intros o. rewrite !op_count_app. unfold op_count; simpl. rewrite E.
        destruct (CigarOp_eqb (op e) o); lia.
    + rewrite !expand_app, !sum_delta_app. split; [|split; [|split]].
      * apply Forall_app. split; [exact Ha|]. repeat constructor; assumption.
      * rewrite <- app_assoc. f_equal. unfold expand; simpl. rewrite !app_nil_r. reflexivity.
      * unfold sum_delta; simpl. pos_eq.
      * intros o. rewrite !op_count_app. unfold op_count; simpl.
        destruct (CigarOp_eqb (op s) o), (CigarOp_eqb (op e) o); lia.
Qed.

Lemma index_in_bounds (l : Seq) (i : I) :
  0 <= i < Z.of_nat (List.length l) -> exists v, index l i = Some v.
Proof.
  intros H. unfold index, get. replace (i <? 0) with false by (symmetry; apply Z.ltb_ge; lia).
  destruct (nth_error l (Z.to_nat i)) eqn:E; [eauto|].
  apply nth_error_None in E. lia.
Qed.

Lemma resolve_match_loop_spec (text pattern : Seq) (n : nat) : forall (pos : Pos) (acc : Cigar),
  (forall k : nat, (k < n)%nat ->
     0 <= p0 pos + Z.of_nat k < Z.of_nat (List.length text) /\
     0 <= p1 pos + Z.of_nat k < Z.of_nat (List.length pattern)) ->
  Forall (fun e => 0 <= cnt e) (ops acc) ->
  exists acc',
    resolve_match_loop n text pattern pos acc
      = Some (pos_add pos (MkPos (Z.of_nat n) (Z.of_nat n)), acc') /\
    Forall (fun e => 0 <= cnt e) (ops acc') /\
    (exists out, expand (ops acc') = expand (ops acc) ++ out /\
                 Forall2 reclassified (repeat Match n) out) /\
    sum_delta (ops acc') = pos_add (sum_delta (ops acc)) (MkPos (Z.of_nat n) (Z.of_nat n)) /\
    op_count Ins (ops acc') = op_count Ins (ops acc) /\
    op_count Del (ops acc') = op_count Del (ops acc).
Proof.
  induction n as [|n IH]; intros pos acc Hb Hacc.
  - exists acc. cbn [resolve_match_loop]. split; [f_equal; f_equal; pos_eq|].
    split; [exact Hacc|]. split; [exists []; rewrite app_nil_r; split; [reflexivity|constructor]|].
    split; [destruct (sum_delta (ops acc)); pos_eq | split; reflexivity].
  - destruct (Hb 0%nat ltac:(lia)) as [H0 H1].
    destruct (index_in_bounds text (p0 pos) ltac:(lia)) as [a Ha].
    destruct (index_in_bounds pattern (p1 pos) ltac:(lia)) as [b Hb'].
    cbn [resolve_match_loop]. rewrite Ha, Hb'.
    set (o := if a =? b then Match else Sub).
    destruct (push_elem_ops_measures (ops acc) (MkElem o 1) Hacc ltac:(simpl; lia))
      as (Hn & He & Hs & Hc).
    destruct (IH (pos_add pos (delta Match)) (push acc o)) as (acc' & Er & Hn' & (out & He' & Hf) & Hs' & Hi & Hd).
    { intros k Hk. destruct (Hb (S k) ltac:(lia)) as [Hk0 Hk1]. simpl. lia. }
    { exact Hn. }
    exists acc'. rewrite Er. split; [f_equal; f_equal; pos_eq|].
    split; [exact Hn'|]. split.
    + exists (o :: out). unfold push, push_elem in He'. simpl in He'. rewrite He', He.
      split; [simpl; rewrite <- app_assoc; reflexivity|].
      constructor; [|exact Hf]. unfold o, reclassified. destruct (a =? b); auto.
    + unfold push, push_elem in Hs', Hi, Hd. simpl in Hs', Hi, Hd.
      rewrite Hs', Hs, Hi, Hd, !Hc. split; [|split].
      * replace (delta (op (MkElem o 1))) with (MkPos 1 1) by (unfold o; destruct (a =? b); reflexivity).
        pos_eq.
      * unfold o; destruct (a =? b); simpl; lia.
      * unfold o; destruct (a =? b); simpl; lia.
Qed.

Lemma Forall2_reclassified_refl (l : list CigarOp) : Forall2 reclassified l l.
Proof. induction l; constructor; [left; reflexivity | assumption]. Qed.

Lemma match_bases_in_bounds_run (text pattern : Seq) (pos : Pos) (n : Z) :
  forallb (fun k => (0 <=? p0 pos + k) && (p0 pos + k <? Z.of_nat (List.length text)) &&
                    (0 <=? p1 pos + k) && (p1 pos + k <? Z.of_nat (List.length pattern)))
    (map Z.of_nat (seq 0 (Z.to_nat n))) = true ->
  forall k : nat, (k < Z.to_nat n)%nat ->
    0 <= p0 pos + Z.of_nat k < Z.of_nat (List.length text) /\
    0 <= p1 pos + Z.of_nat k < Z.of_nat (List.length pattern).
Proof.
  intros H k Hk. rewrite forallb_forall in H.
  specialize (H (Z.of_nat k) ltac:(apply in_map, in_seq; lia)).
  repeat rewrite andb_true_iff in H. rewrite !Z.leb_le, !Z.ltb_lt in H. lia.
Qed.

Lemma resolve_go_spec (text pattern : Seq) (els : list CigarElem) : forall (pos : Pos) (acc : Cigar),
  Forall (fun e => 0 <= cnt e) els ->
  Forall (fun e => 0 <= cnt e) (ops acc) ->
  match_bases_in_bounds text pattern pos els = true ->
  exists c,
    resolve_go text pattern pos acc els = Some c /\
    Forall (fun e => 0 <= cnt e) (ops c) /\
    (exists out, expand (ops c) = expand (ops acc) ++ out /\
                 Forall2 reclassified (expand els) out) /\
    sum_delta (ops c) = pos_add (sum_delta (ops acc)) (sum_delta els) /\
    op_count Ins (ops c) = op_count Ins (ops acc) + op_count Ins els /\
    op_count Del (ops c) = op_count Del (ops acc) + op_count Del els.
Proof.
  induction els as [|[o n] rest IH]; intros pos acc Hn Hacc Hb.
  - exists acc. split; [reflexivity|]. split; [exact Hacc|].
    split; [exists []; rewrite app_nil_r; split; [reflexivity|constructor]|].
    change (op_count Ins []) with 0. change (op_count Del []) with 0.
    change (sum_delta []) with (MkPos 0 0).
    split; [destruct (sum_delta (ops acc)); pos_eq | lia].
  - inversion Hn as [|? ? Hn0 Hrest]; subst. cbn [cnt] in Hn0.
    cbn [match_bases_in_bounds op cnt] in Hb. apply andb_true_iff in Hb as [Hm Hr].
    assert (Hexp : expand (MkElem o n :: rest) = repeat o (Z.to_nat n) ++ expand rest)
      by reflexivity.
    assert (Hsum : sum_delta (MkElem o n :: rest)
                   = pos_add (pos_mul (delta o) n) (sum_delta rest)) by reflexivity.
    assert (Hcnt : forall o', op_count o' (MkElem o n :: rest)
                   = (if CigarOp_eqb o o' then n else 0) + op_count o' rest) by reflexivity.
    rewrite Hexp, Hsum, !Hcnt.
    destruct (CigarOp_eqb o Match) eqn:Eo.
    + apply CigarOp_eqb_spec in Eo. subst o.
      destruct (resolve_match_loop_spec text pattern (Z.to_nat n) pos acc
                  (match_bases_in_bounds_run text pattern pos n Hm) Hacc)
        as (acc1 & E1 & Hn1 & (out1 & He1 & Hf1) & Hs1 & Hi1 & Hd1).
      rewrite Z2Nat.id in E1, Hs1 by exact Hn0.
      replace (pos_add pos (pos_mul (delta Match) n)) with (pos_add pos (MkPos n n)) in Hr
        by (unfold pos_add, pos_mul, delta; cbn [p0 p1]; f_equal; lia).
      destruct (IH _ acc1 Hrest Hn1 Hr) as (c & E2 & Hnc & (out2 & He2 & Hf2) & Hs2 & Hi2 & Hd2).
      exists c. cbn [resolve_go]. rewrite E1. split; [exact E2|]. split; [exact Hnc|].
      split; [exists (out1 ++ out2); split;
              [rewrite He2, He1, app_assoc; reflexivity | apply Forall2_app; assumption]|].
      rewrite Hs2, Hs1, Hi2, Hi1, Hd2, Hd1. cbn [CigarOp_eqb].
      split; [|lia].
      destruct (sum_delta (ops acc)), (sum_delta rest).
      unfold pos_add, pos_mul, delta; cbn [p0 p1]; f_equal; lia.
    + assert (Estep : resolve_go text pattern pos acc (MkElem o n :: rest)
                      = resolve_go text pattern (pos_add pos (pos_mul (delta o) n))
                          (push_elem acc (MkElem o n)) rest)
        by (destruct o; [discriminate | reflexivity ..]).
      destruct (push_elem_ops_measures (ops acc) (MkElem o n) Hacc Hn0)
        as (Hn1 & He1 & Hs1 & Hc1).
      destruct (IH _ (push_elem acc (MkElem o n)) Hrest Hn1 Hr)
        as (c & E2 & Hnc & (out2 & He2 & Hf2) & Hs2 & Hi2 & Hd2).
      exists c. rewrite Estep. split; [exact E2|]. split; [exact Hnc|].
      cbn [push_elem ops] in He2, Hs2, Hi2, Hd2. cbn [op cnt] in He1, Hs1, Hc1.
      split; [exists (repeat o (Z.to_nat n) ++ out2); split;
              [rewrite He2, He1, app_assoc; reflexivity
              | apply Forall2_app; [apply Forall2_reclassified_refl | assumption]]|].
      rewrite Hs2, Hs1, Hi2, Hd2, !Hc1. split; [|lia].
      destruct (sum_delta (ops acc)), (sum_delta rest), (delta o).
      unfold pos_add, pos_mul; cbn [p0 p1]; f_equal; ring.
Qed.

(** ** Lemmas on [to_path] *)

Lemma to_path_run_spec (n : nat) (d : Pos) : forall pos : Pos,
  to_path_run n d pos =
  (map (fun k => pos_add pos (pos_mul d (Z.of_nat k))) (seq 1 n),
   pos_add pos (pos_mul d (Z.of_nat n))).
Proof.
  induction n as [|n IH]; intros pos; cbn [to_path_run].
  - f_equal. pos_eq.
  - rewrite IH, map_seq_succ. f_equal; [f_equal; [pos_eq|]|pos_eq].
    apply map_ext. intros k. pos_eq.
Qed.

Lemma pos_scan_repeat (o : CigarOp) (n : nat) : forall pos : Pos,
  pos_scan pos (repeat o n) = map (fun k => pos_add pos (pos_mul (delta o) (Z.of_nat k))) (seq 1 n).
Proof.
  induction n as [|n IH]; intros pos; [reflexivity|].
  cbn [repeat pos_scan]. rewrite IH, map_seq_succ. f_equal; [pos_eq|].
  apply map_ext. intros k. pos_eq.
Qed.

Lemma pos_end_cons (pos : Pos) (o : CigarOp) (l : list CigarOp) :
  pos_end pos (o :: l) = pos_end (pos_add pos (delta o)) l.
Proof. reflexivity. Qed.

Lemma pos_end_app (pos : Pos) (l1 l2 : list CigarOp) :
  pos_end pos (l1 ++ l2) = pos_end (pos_end pos l1) l2.
Proof. unfold pos_end. apply fold_left_app. Qed.

Lemma pos_end_repeat (o : CigarOp) (n : nat) : forall pos : Pos,
  pos_end pos (repeat o n) = pos_add pos (pos_mul (delta o) (Z.of_nat n)).
Proof.
  induction n as [|n IH]; intros pos; cbn [repeat]; [unfold pos_end; simpl; pos_eq|].
  rewrite pos_end_cons, IH. pos_eq.
Qed.

Lemma pos_scan_app (l1 : list CigarOp) : forall (pos : Pos) (l2 : list CigarOp),
  pos_scan pos (l1 ++ l2) = pos_scan pos l1 ++ pos_scan (pos_end pos l1) l2.
Proof.
  induction l1 as [|o l1 IH]; intros pos l2; [reflexivity|].
  cbn [app pos_scan]. rewrite IH. reflexivity.
Qed.

Lemma expand_cons (e : CigarElem) (l : list CigarElem) :
  expand (e :: l) = repeat (op e) (Z.to_nat (cnt e)) ++ expand l.
Proof. reflexivity. Qed.

(** [to_path_go] lists the position after each base. *)
Lemma to_path_go_scan (els : list CigarElem) : forall pos : Pos,
  to_path_go pos els = pos_scan pos (expand els).
Proof.
  induction els as [|e els IH]; intros pos; [reflexivity|].
  cbn [to_path_go]. rewrite to_path_run_spec, expand_cons, pos_scan_app, pos_scan_repeat,
    pos_end_repeat, IH. reflexivity.
Qed.

Lemma to_path_scan (c : Cigar) :
  to_path c = MkPos 0 0 :: pos_scan (MkPos 0 0) (expand (ops c)).
Proof. unfold to_path. rewrite to_path_go_scan. reflexivity. Qed.

Lemma windows_scan (l : list CigarOp) : forall pos : Pos,
  map (fun w => pos_sub (snd w) (fst w)) (windows (pos :: pos_scan pos l)) = map delta l.
Proof.
  induction l as [|o l IH]; intros pos; [reflexivity|].
  cbn [pos_scan]. change (windows (pos :: pos_add pos (delta o) :: pos_scan (pos_add pos (delta o)) l))
    with ((pos, pos_add pos (delta o)) :: windows (pos_add pos (delta o) :: pos_scan (pos_add pos (delta o)) l)).
  cbn [map fst snd]. rewrite IH. f_equal. destruct (delta o). pos_eq.
Qed.

Lemma pos_scan_length (l : list CigarOp) : forall pos : Pos,
  List.length (pos_scan pos l) = List.length l.
Proof. induction l; intros pos; simpl; [reflexivity|]. rewrite IHl. reflexivity. Qed.

Lemma last_scan (l : list CigarOp) : forall (pos d : Pos),
  last (pos :: pos_scan pos l) d = pos_end pos l.
Proof.
  induction l as [|o l IH]; intros pos d; [reflexivity|].
  cbn [pos_scan]. rewrite pos_end_cons, <- (IH _ d). reflexivity.
Qed.

Lemma pos_end_expand (els : list CigarElem) : forall pos : Pos,
  Forall (fun e => 0 <= cnt e) els ->
  pos_end pos (expand els) = pos_add pos (sum_delta els).
Proof.
  induction els as [|e els IH]; intros pos H; [unfold pos_end; simpl; pos_eq|].
  inversion H as [|? ? He Hs]; subst.
  rewrite expand_cons, pos_end_app, pos_end_repeat, IH by exact Hs.
  rewrite Z2Nat.id by exact He.
  unfold sum_delta; cbn [fold_right]. fold (sum_delta els).
  destruct (sum_delta els), (delta (op e)). pos_eq.
Qed.

Lemma map_fst_spec_trace (cm : CostModel) (els : list CigarElem) : forall (pos : Pos) (cost : Cost),
  map fst (spec_trace cm pos cost els) = to_path_go pos els.
Proof.
  induction els as [|e els IH]; intros pos cost; [reflexivity|].
  cbn [spec_trace to_path_go]. rewrite map_app, IH, to_path_run_spec.
  f_equal. unfold spec_run. destruct (op e); cbn [fst]; rewrite map_map; reflexivity.
Qed.

(** Reversing a per-base op stream reverses the positions it visits and
    reflects them through the end point. *)
Lemma pos_scan_rev (l : list CigarOp) : forall q : Pos,
  q :: pos_scan q (rev l) =
  map (fun x => pos_add q (pos_sub (pos_end (MkPos 0 0) l) x))
    (rev (MkPos 0 0 :: pos_scan (MkPos 0 0) l)).
Proof.
  induction l as [|o l IH] using rev_ind; intros q.
  - simpl. f_equal. unfold pos_end; simpl. pos_eq.
  - rewrite rev_app_distr. cbn [rev app pos_scan].
    rewrite pos_scan_app. cbn [pos_scan].
    rewrite rev_app_distr. cbn [rev app map]. rewrite pos_end_app.
    specialize (IH (pos_add q (delta o))). cbn [rev] in IH. rewrite IH. f_equal.
    + unfold pos_end at 1; cbn [fold_left].
      destruct (pos_end (MkPos 0 0) l), (delta o). pos_eq.
    + apply map_ext. intros x. unfold pos_end at 2; cbn [fold_left].
      destruct (pos_end (MkPos 0 0) l), (delta o), x. pos_eq.
Qed.

Lemma expand_rev (l : list CigarElem) : expand (rev l) = rev (expand l).
Proof.
  induction l as [|e l IH]; [reflexivity|].
  cbn [rev]. unfold expand in *. rewrite flat_map_app, IH. simpl.
  rewrite app_nil_r, rev_app_distr, rev_repeat. reflexivity.
Qed.

(** ** Further properties *)

(** [to_path] starts at (0,0), has one point per base after it, and each
    step between consecutive points is the delta of the corresponding
    base. *)
Theorem to_path_steps (c : Cigar) :
  hd (MkPos 0 0) (to_path c) = MkPos 0 0 /\
  List.length (to_path c) = S (List.length (expand (ops c))) /\
  map (fun w => pos_sub (snd w) (fst w)) (windows (to_path c)) = map delta (expand (ops c)).
Proof.
  rewrite to_path_scan. split; [reflexivity|]. split.
  - cbn [List.length]. rewrite pos_scan_length. reflexivity.
  - apply windows_scan.
Qed.

(** With non-negative counts, [to_path] ends at the summed delta of the
    elements. *)
Theorem to_path_last (c : Cigar) (Hn : Forall (fun e => 0 <= cnt e) (ops c)) :
  last (to_path c) (MkPos 0 0) = sum_delta (ops c).
Proof.
  rewrite to_path_scan, last_scan, pos_end_expand by exact Hn. apply pos_add_0_l.
Qed.

Lemma to_path_last_witness :
  Forall (fun e => 0 <= cnt e) (ops (MkCigar [MkElem Match 2; MkElem Del 1; MkElem Ins 3])) /\
  last (to_path (MkCigar [MkElem Match 2; MkElem Del 1; MkElem Ins 3])) (MkPos 0 0)
  = sum_delta (ops (MkCigar [MkElem Match 2; MkElem Del 1; MkElem Ins 3])).
Proof.
  assert (H : Forall (fun e => 0 <= cnt e) (ops (MkCigar [MkElem Match 2; MkElem Del 1; MkElem Ins 3])))
    by (repeat constructor; cbn [cnt]; lia).
  split; [exact H|]. exact (to_path_last _ H).
Defined.

(** The positions of [to_path_with_costs] are those of [to_path]. *)
Theorem to_path_with_costs_positions (c : Cigar) (cm : CostModel) :
  map fst (to_path_with_costs c cm) = to_path c.
Proof.
  unfold to_path_with_costs, to_path. rewrite twc_go_spec. cbn [map fst].
  rewrite map_fst_spec_trace. reflexivity.
Qed.

(** The path of the reversed Cigar is the path of the Cigar read backwards
    and reflected through its end point. *)
Theorem to_path_reverse (c : Cigar) :
  to_path (reverse c) = map (fun x => pos_sub (last (to_path c) (MkPos 0 0)) x) (rev (to_path c)).
Proof.
  rewrite !to_path_scan. unfold reverse. cbn [ops]. rewrite expand_rev, last_scan.
  rewrite (pos_scan_rev (expand (ops c)) (MkPos 0 0)).
  apply map_ext. intros x. destruct x, (pos_end (MkPos 0 0) (expand (ops c))). pos_eq.
Qed.

(** ** Lemmas on [from_delta], [from_path] and [resolve_matches] *)

Lemma from_delta_of_delta (o : CigarOp) : from_delta (delta o) = Some (path_op o).
Proof. destruct o; reflexivity. Qed.

Lemma path_elems_scan (l : list CigarOp) : forall pos : Pos,
  path_elems (windows (pos :: pos_scan pos l)) = Some (unit_elems (map path_op l)).
Proof.
  induction l as [|o l IH]; intros pos; [reflexivity|].
  cbn [pos_scan].
  change (windows (pos :: pos_add pos (delta o) :: pos_scan (pos_add pos (delta o)) l))
    with ((pos, pos_add pos (delta o)) :: windows (pos_add pos (delta o) :: pos_scan (pos_add pos (delta o)) l)).
  cbn [path_elems]. replace (pos_sub (pos_add pos (delta o)) pos) with (delta o)
    by (destruct pos, (delta o); pos_eq).
  rewrite from_delta_of_delta, IH. reflexivity.
Qed.

(** [from_path] on the path of a Cigar resolves the per-base ops of the
    Cigar, as unit elements, with Sub read back as Match. *)
Lemma from_path_to_path_units (text pattern : Seq) (c : Cigar) :
  from_path text pattern (to_path c)
  = resolve_matches (unit_elems (map path_op (expand (ops c)))) text pattern.
Proof. rewrite to_path_scan. unfold from_path. rewrite path_elems_scan. reflexivity. Qed.

Lemma resolve_units (text pattern : Seq) (l : list CigarOp) : forall (pos : Pos) (acc : Cigar),
  bases_consistent text pattern pos l = true ->
  resolve_go text pattern pos acc (unit_elems (map path_op l)) = Some (fold_left push l acc).
Proof.
  induction l as [|o l IH]; intros pos acc H; [reflexivity|].
  cbn [bases_consistent] in H. apply andb_true_iff in H as [Ho Hr].
  unfold unit_elems in *. cbn [map fold_left].
  destruct o; cbn [path_op resolve_go op cnt].
  - change (Z.to_nat 1) with 1%nat. cbn [resolve_match_loop].
    destruct (index text (p0 pos)) as [a|], (index pattern (p1 pos)) as [b|]; try discriminate.
    rewrite Ho. apply IH. exact Hr.
  - change (Z.to_nat 1) with 1%nat. cbn [resolve_match_loop].
    destruct (index text (p0 pos)) as [a|], (index pattern (p1 pos)) as [b|]; try discriminate.
    destruct (a =? b); [discriminate|]. apply IH. exact Hr.
  - apply IH. exact Hr.
  - apply IH. exact Hr.
Qed.

(** Two pushes of the same op add up. *)
Lemma push_elem_merge (c : Cigar) (o : CigarOp) (a b : I) :
  push_elem (push_elem c (MkElem o a)) (MkElem o b) = push_elem c (MkElem o (a + b)).
Proof.
  destruct c as [l]. unfold push_elem; cbn [ops]. f_equal.
  induction l as [|s l' _] using rev_ind.
  - cbn. rewrite CigarOp_eqb_refl. reflexivity.
  - rewrite !push_elem_ops_snoc. cbn [op cnt]. destruct (CigarOp_eqb (op s) o) eqn:E.
    + rewrite push_elem_ops_snoc. cbn [op cnt]. rewrite E, Z.add_assoc. reflexivity.
    + change (l' ++ [s; MkElem o a]) with (l' ++ [s] ++ [MkElem o a]).
      rewrite app_assoc, push_elem_ops_snoc. cbn [op cnt]. rewrite CigarOp_eqb_refl.
      rewrite <- app_assoc. reflexivity.
Qed.

Lemma fold_push_repeat (o : CigarOp) (n : nat) : forall acc : Cigar,
  fold_left push (repeat o (S n)) acc = push_elem acc (MkElem o (Z.of_nat (S n))).
Proof.
  induction n as [|n IH]; intros acc; [reflexivity|].
  change (repeat o (S (S n))) with (o :: repeat o (S n)). rewrite repeat_cons.
  rewrite fold_left_app, IH. cbn [fold_left]. unfold push. rewrite push_elem_merge.
  f_equal. f_equal. lia.
Qed.

Lemma fold_push_expand (l : list CigarElem) : forall acc : Cigar,
  Forall (fun e => 1 <= cnt e) l ->
  fold_left push (expand l) acc = fold_left push_elem l acc.
Proof.
  induction l as [|[o n] l IH]; intros acc H; [reflexivity|].
  inversion H as [|? ? He Hl]; subst. cbn [cnt] in He.
  rewrite expand_cons, fold_left_app. cbn [op cnt fold_left].
  destruct (Z.to_nat n) as [|k] eqn:Ek; [lia|].
  rewrite fold_push_repeat, <- Ek, Z2Nat.id by lia. apply IH. exact Hl.
Qed.

Lemma resolve_match_loop_coalesced (text pattern : Seq) (n : nat) :
  forall (pos pos' : Pos) (acc acc' : Cigar),
  coalesced (ops acc) = true ->
  resolve_match_loop n text pattern pos acc = Some (pos', acc') ->
  coalesced (ops acc') = true.
Proof.
  induction n as [|n IH]; intros pos pos' acc acc' Hc H; cbn [resolve_match_loop] in H.
  - inversion H; subst. exact Hc.
  - destruct (index text (p0 pos)), (index pattern (p1 pos)); try discriminate.
    refine (IH _ _ _ _ _ H). apply coalesced_push_elem_ops. exact Hc.
Qed.

Lemma resolve_go_coalesced (text pattern : Seq) (els : list CigarElem) :
  forall (pos : Pos) (acc c : Cigar),
  coalesced (ops acc) = true -> resolve_go text pattern pos acc els = Some c ->
  coalesced (ops c) = true.
Proof.
  induction els as [|[o n] els IH]; intros pos acc c Hc H; cbn [resolve_go] in H.
  - inversion H; subst. exact Hc.
  - destruct o.
    + destruct (resolve_match_loop _ _ _ _ _) as [[pos' acc']|] eqn:E; [|discriminate].
      apply (IH _ _ _ (resolve_match_loop_coalesced _ _ _ _ _ _ _ Hc E) H).
    + refine (IH _ _ _ _ H). apply coalesced_push_elem_ops. exact Hc.
    + refine (IH _ _ _ _ H). apply coalesced_push_elem_ops. exact Hc.
    + refine (IH _ _ _ _ H). apply coalesced_push_elem_ops. exact Hc.
Qed.

(** [from_delta] reads an op back from its delta: it gives [o] exactly for
    the delta of [o], except that it never gives [Sub] ((1,1) reads as
    [Match]). *)
Theorem from_delta_spec (d : Pos) (o : CigarOp) :
  from_delta d = Some o <-> delta o = d /\ o <> Sub.
Proof.
  split.
  - destruct d as [x y]; unfold from_delta; cbn [p0 p1].
    destruct x as [|[p|p|]|p]; destruct y as [|[q|q|]|q]; intros H; try discriminate;
      inversion H; subst; split; try reflexivity; discriminate.
  - intros [<- Hs]. rewrite from_delta_of_delta. destruct o; [reflexivity|contradiction|reflexivity..].
Qed.

(** Every Cigar with counts at least 1, coalesced runs, Match bases on
    equal bytes and Sub bases on different bytes (all in bounds) is
    rebuilt by [from_path] from its own path. *)
Theorem from_path_to_path (text pattern : Seq) (c : Cigar)
    (Hn : Forall (fun e => 1 <= cnt e) (ops c)) (Hc : coalesced (ops c) = true)
    (Hb : bases_consistent text pattern (MkPos 0 0) (expand (ops c)) = true) :
  from_path text pattern (to_path c) = Some c.
Proof.
  rewrite from_path_to_path_units. unfold resolve_matches. rewrite resolve_units by exact Hb.
  rewrite fold_push_expand by exact Hn. rewrite (fold_push_elem_coalesced (ops c) [] Hc).
  destruct c; reflexivity.
Qed.

Lemma from_path_to_path_witness :
  Forall (fun e => 1 <= cnt e) (ops (MkCigar [MkElem Match 2; MkElem Sub 1; MkElem Ins 1; MkElem Del 1])) /\
  coalesced (ops (MkCigar [MkElem Match 2; MkElem Sub 1; MkElem Ins 1; MkElem Del 1])) = true /\
  bases_consistent (bytes "aabc") (bytes "aaxy") (MkPos 0 0)
    (expand (ops (MkCigar [MkElem Match 2; MkElem Sub 1; MkElem Ins 1; MkElem Del 1]))) = true /\
  from_path (bytes "aabc") (bytes "aaxy")
    (to_path (MkCigar [MkElem Match 2; MkElem Sub 1; MkElem Ins 1; MkElem Del 1]))
  = Some (MkCigar [MkElem Match 2; MkElem Sub 1; MkElem Ins 1; MkElem Del 1]).
Proof.
  assert (Hn : Forall (fun e => 1 <= cnt e)
                 (ops (MkCigar [MkElem Match 2; MkElem Sub 1; MkElem Ins 1; MkElem Del 1])))
    by (repeat constructor; cbn [cnt]; lia).
  assert (Hc : coalesced (ops (MkCigar [MkElem Match 2; MkElem Sub 1; MkElem Ins 1; MkElem Del 1]))
               = true) by reflexivity.
  assert (Hb : bases_consistent (bytes "aabc") (bytes "aaxy") (MkPos 0 0)
    (expand (ops (MkCigar [MkElem Match 2; MkElem Sub 1; MkElem Ins 1; MkElem Del 1]))) = true)
    by (vm_compute; reflexivity).
  split; [exact Hn|]. split; [exact Hc|]. split; [exact Hb|].
  exact (from_path_to_path _ _ _ Hn Hc Hb).
Defined.

(** [resolve_matches], when it does not panic, returns a coalesced Cigar:
    adjacent runs of the same op are always joined. *)
Theorem resolve_matches_coalesced (els : list CigarElem) (text pattern : Seq) (c : Cigar)
    (H : resolve_matches els text pattern = Some c) :
  coalesced (ops c) = true.
Proof. refine (resolve_go_coalesced _ _ _ _ _ _ _ H). reflexivity. Qed.

Lemma resolve_matches_coalesced_witness :
  resolve_matches [MkElem Match 1; MkElem Match 2; MkElem Ins 1; MkElem Ins 1]
    [1; 1; 2] [1; 1; 2; 7] = Some (MkCigar [MkElem Match 3; MkElem Ins 2]) /\
  coalesced (ops (MkCigar [MkElem Match 3; MkElem Ins 2])) = true.
Proof.
  assert (H : resolve_matches [MkElem Match 1; MkElem Match 2; MkElem Ins 1; MkElem Ins 1]
    [1; 1; 2] [1; 1; 2; 7] = Some (MkCigar [MkElem Match 3; MkElem Ins 2])) by reflexivity.
  split; [exact H|]. exact (resolve_matches_coalesced _ _ _ _ H).
Defined.

(** ** Lemmas on the parsers *)

Lemma map_option_Forall {A B : Type} (f : A -> option B) (P : B -> Prop) (l : list A) :
  forall l' : list B,
  (forall x y, In x l -> f x = Some y -> P y) -> map_option f l = Some l' -> Forall P l'.
Proof.
  induction l as [|x l IH]; intros l' Hf H; cbn [map_option] in H.
  - inversion H; constructor.
  - destruct (f x) as [y|] eqn:Ex; [|discriminate].
    destruct (map_option f l) as [ys|]; [|discriminate].
    inversion H; subst. constructor.
    + apply (Hf x); [left; reflexivity | exact Ex].
    + apply IH; [|reflexivity]. intros x' y' Hin. apply Hf. right. exact Hin.
Qed.

Lemma map_option_ext_in {A B : Type} (f g : A -> option B) (l : list A) :
  (forall x, In x l -> f x = g x) -> map_option f l = map_option g l.
Proof.
  induction l as [|x l IH]; intros H; [reflexivity|]. cbn [map_option].
  rewrite (H x (or_introl eq_refl)), IH; [reflexivity|].
  intros y Hy. apply H. right. exact Hy.
Qed.

Lemma parse_without_resolving_go_spec (s : list u8) : forall c : Cigar,
  parse_without_resolving_go c s =
  option_map (fun os => fold_left push os c) (map_option CigarOp_from_u8 s).
Proof.
  induction s as [|b s IH]; intros c; [reflexivity|]. cbn [parse_without_resolving_go map_option].
  destruct (CigarOp_from_u8 b) as [o|]; [|reflexivity].
  rewrite IH. destruct (map_option CigarOp_from_u8 s); reflexivity.
Qed.

Lemma fold_push_chunk (l : list CigarOp) : forall (pre : list CigarElem) (cur : CigarOp) (n : nat),
  fold_left push l (MkCigar (pre ++ [MkElem cur (Z.of_nat n)])) = MkCigar (pre ++ chunk_ops cur n l).
Proof.
  induction l as [|o l IH]; intros pre cur n; [reflexivity|].
  cbn [fold_left chunk_ops]. unfold push at 2, push_elem. cbn [ops].
  rewrite push_elem_ops_snoc. cbn [op cnt].
  destruct (CigarOp_eqb cur o) eqn:E.
  - apply CigarOp_eqb_spec in E. subst o. rewrite CigarOp_eqb_refl.
    replace (Z.of_nat n + 1) with (Z.of_nat (S n)) by lia. apply IH.
  - replace (CigarOp_eqb o cur) with false by (destruct o, cur; simpl in *; congruence).
    change (pre ++ [MkElem cur (Z.of_nat n); MkElem o 1])
      with (pre ++ [MkElem cur (Z.of_nat n)] ++ [MkElem o (Z.of_nat 1)]).
    rewrite app_assoc, IH, <- app_assoc. reflexivity.
Qed.

Lemma fold_push_from_ops (os : list CigarOp) : fold_left push os (MkCigar []) = from_ops os.
Proof.
  destruct os as [|o os]; [reflexivity|].
  cbn [fold_left]. apply (fold_push_chunk os [] o 1).
Qed.

Lemma split_inclusive_go_all (pred : u8 -> bool) (l : list u8) :
  forallb pred l = true -> split_inclusive_go pred [] l = map (fun b => [b]) l.
Proof.
  induction l as [|b l IH]; intros H; [reflexivity|].
  cbn [forallb] in H. apply andb_true_iff in H as [Hb Hl].
  cbn [split_inclusive_go]. rewrite Hb, IH by exact Hl. reflexivity.
Qed.

Lemma from_string_go_singletons (s : list u8) : forall c : Cigar,
  from_string_go c (map (fun b => [b]) s) = parse_without_resolving_go c s.
Proof.
  induction s as [|b s IH]; intros c; [reflexivity|].
  cbn [map from_string_go parse_without_resolving_go].
  unfold parse_piece. cbn [split_last rev app]. unfold split_last; cbn [rev app].
  destruct (CigarOp_from_u8 b); [apply IH | reflexivity].
Qed.

Lemma from_string_go_spec (pieces : list (list u8)) : forall c : Cigar,
  from_string_go c pieces =
  option_map (fun els => fold_left push_elem els c) (map_option parse_piece pieces).
Proof.
  induction pieces as [|pc pieces IH]; intros c; [reflexivity|].
  cbn [from_string_go map_option]. destruct (parse_piece pc) as [e|]; [|reflexivity].
  rewrite IH. destruct (map_option parse_piece pieces); reflexivity.
Qed.

Lemma resolve_match_loop_add (text pattern : Seq) (a : nat) : forall (b : nat) (pos : Pos) (acc : Cigar),
  resolve_match_loop (a + b) text pattern pos acc =
  match resolve_match_loop a text pattern pos acc with
  | Some (pos', acc') => resolve_match_loop b text pattern pos' acc'
  | None => None
  end.
Proof.
  induction a as [|a IH]; intros b pos acc; [reflexivity|].
  cbn [Nat.add resolve_match_loop].
  destruct (index text (p0 pos)), (index pattern (p1 pos)); [apply IH|reflexivity..].
Qed.

Lemma resolve_go_merge_two (text pattern : Seq) (o : CigarOp) (n1 n2 : I)
    (rest : list CigarElem) (pos : Pos) (acc : Cigar) :
  0 <= n1 -> 0 <= n2 ->
  resolve_go text pattern pos acc (MkElem o (n1 + n2) :: rest) =
  resolve_go text pattern pos acc (MkElem o n1 :: MkElem o n2 :: rest).
Proof.
  intros H1 H2. destruct o; cbn [resolve_go].
  - rewrite Z2Nat.inj_add, resolve_match_loop_add by assumption.
    destruct (resolve_match_loop (Z.to_nat n1) _ _ _ _) as [[pos' acc']|]; [|reflexivity].
    cbn [resolve_go]. destruct (resolve_match_loop (Z.to_nat n2) _ _ _ _) as [[? ?]|]; reflexivity.
  - rewrite push_elem_merge. f_equal. unfold pos_add, pos_mul; cbn [delta p0 p1]. f_equal; ring.
  - rewrite push_elem_merge. f_equal. unfold pos_add, pos_mul; cbn [delta p0 p1]. f_equal; ring.
  - rewrite push_elem_merge. f_equal. unfold pos_add, pos_mul; cbn [delta p0 p1]. f_equal; ring.
Qed.

(** Resolving after a [push_elem] is resolving the two elements in turn. *)
Lemma resolve_go_push_elem (text pattern : Seq) (l : list CigarElem) (e : CigarElem) :
  forall (rest : list CigarElem) (pos : Pos) (acc : Cigar),
  Forall (fun e => 0 <= cnt e) l -> 0 <= cnt e ->
  resolve_go text pattern pos acc (push_elem_ops l e ++ rest) =
  resolve_go text pattern pos acc (l ++ e :: rest).
Proof.
  induction l as [|s l IH]; intros rest pos acc Hl He; [reflexivity|].
  inversion Hl as [|? ? Hs Hl']; subst.
  destruct l as [|s' l''].
  - cbn [push_elem_ops]. destruct (CigarOp_eqb (op s) (op e)) eqn:E; [|reflexivity].
    apply CigarOp_eqb_spec in E. destruct s as [o n1], e as [o' n2]. cbn [op cnt] in *. subst o'.
    apply resolve_go_merge_two; assumption.
  - rewrite push_elem_ops_cons by discriminate. cbn [app].
    destruct s as [o n]. destruct o; cbn [resolve_go].
    + destruct (resolve_match_loop _ _ _ _ _) as [[pos' acc']|]; [|reflexivity].
      apply IH; assumption.
    + apply IH; assumption.
    + apply IH; assumption.
    + apply IH; assumption.
Qed.

(** Resolving a stream merged by [push_elem] is resolving the stream. *)
Lemma resolve_go_fold_push_elem (text pattern : Seq) (els : list CigarElem) :
  forall (pre : list CigarElem) (pos : Pos) (acc : Cigar),
  Forall (fun e => 0 <= cnt e) pre -> Forall (fun e => 0 <= cnt e) els ->
  resolve_go text pattern pos acc (ops (fold_left push_elem els (MkCigar pre))) =
  resolve_go text pattern pos acc (pre ++ els).
Proof.
  induction els as [|e els IH]; intros pre pos acc Hp He.
  - rewrite app_nil_r. reflexivity.
  - inversion He as [|? ? He0 Hels]; subst. cbn [fold_left].
    change (push_elem (MkCigar pre) e) with (MkCigar (push_elem_ops pre e)).
    rewrite IH.
    + rewrite resolve_go_push_elem by assumption. reflexivity.
    + apply (push_elem_ops_measures pre e Hp He0).
    + exact Hels.
Qed.

Lemma split_inclusive_go_ext (f g : u8 -> bool) (l : list u8) :
  (forall x, In x l -> f x = g x) ->
  forall cur, split_inclusive_go f cur l = split_inclusive_go g cur l.
Proof.
  induction l as [|x l IH]; intros H cur; [reflexivity|].
  cbn [split_inclusive_go]. rewrite (H x (or_introl eq_refl)).
  rewrite !IH; [reflexivity| intros y Hy; apply H; right; exact Hy ..].
Qed.

(** Every slice of [split_inclusive pred] is non-empty and all its bytes
    but the last fail [pred]. *)
Lemma split_inclusive_go_shape (pred : u8 -> bool) (l : list u8) : forall cur : list u8,
  forallb (fun b => negb (pred b)) cur = true ->
  Forall (fun pc => exists init x, pc = init ++ [x] /\ forallb (fun b => negb (pred b)) init = true)
    (split_inclusive_go pred cur l).
Proof.
  induction l as [|y l IH]; intros cur Hc; cbn [split_inclusive_go].
  - destruct cur as [|z cur']; [constructor|].
    destruct (exists_last (l := z :: cur') ltac:(discriminate)) as (init & x & Ex).
    constructor; [|constructor]. exists init, x. split; [exact Ex|].
    rewrite Ex, forallb_app in Hc. apply andb_true_iff in Hc. tauto.
  - destruct (pred y) eqn:Ey.
    + constructor; [exists cur, y; split; [reflexivity | exact Hc]|]. apply IH. reflexivity.
    + apply IH. rewrite forallb_app, Hc. cbn. rewrite Ey. reflexivity.
Qed.

Lemma digit_not_sign (d : u8) : is_ascii_digit d = true -> (d =? 43) = false /\ (d =? 45) = false.
Proof.
  unfold is_ascii_digit. intros H. apply andb_true_iff in H as [H1 H2].
  apply Z.leb_le in H1. apply Z.leb_le in H2. split; apply Z.eqb_neq; lia.
Qed.

Lemma parse_count_piece_digits (init : list u8) (x : u8) :
  forallb (fun b => negb (negb (is_ascii_digit b))) init = true ->
  parse_count_piece (init ++ [x]) = parse_piece (init ++ [x]).
Proof.
  intros H. unfold parse_count_piece, parse_piece. rewrite split_last_snoc.
  destruct init as [|d r]; [reflexivity|].
  assert (Hd : forallb is_ascii_digit (d :: r) = true).
  { rewrite forallb_forall in *. intros b Hb. specialize (H b Hb).
    destruct (is_ascii_digit b); [reflexivity|discriminate]. }
  unfold parse_i32. cbn [forallb] in Hd. apply andb_true_iff in Hd as [Hd0 Hr].
  destruct (digit_not_sign d Hd0) as [-> ->].
  unfold parse_digits_i32, parse_I. cbn [forallb]. rewrite Hd0, Hr. reflexivity.
Qed.

Lemma digits_value_nonneg (l : list u8) : forallb is_ascii_digit l = true -> 0 <= digits_value l.
Proof.
  induction l as [|d l IH] using rev_ind; intros H; [reflexivity|].
  rewrite forallb_app in H. apply andb_true_iff in H as [Hl Hd].
  cbn [forallb] in Hd. rewrite andb_true_r in Hd. unfold is_ascii_digit in Hd.
  apply andb_true_iff in Hd as [H1 _]. apply Z.leb_le in H1.
  rewrite digits_value_snoc. specialize (IH Hl). lia.
Qed.

Lemma parse_piece_nonneg (init : list u8) (x : u8) (e : CigarElem) :
  forallb (fun b => negb (negb (is_ascii_digit b))) init = true ->
  parse_piece (init ++ [x]) = Some e -> 0 <= cnt e.
Proof.
  intros H He. unfold parse_piece in He. rewrite split_last_snoc in He.
  assert (Hd : forallb is_ascii_digit init = true).
  { rewrite forallb_forall in *. intros b Hb. specialize (H b Hb).
    destruct (is_ascii_digit b); [reflexivity|discriminate]. }
  destruct init as [|d r].
  - destruct (CigarOp_from_u8 x); inversion He; subst. cbn. lia.
  - unfold parse_I in He. destruct (digits_value (d :: r) <=? i32_max); [|discriminate].
    destruct (CigarOp_from_u8 x); inversion He; subst. cbn [cnt].
    apply digits_value_nonneg. exact Hd.
Qed.

Lemma alphanumeric_split (b : u8) :
  is_ascii_digit b || is_ascii_alphabetic b = true ->
  is_ascii_alphabetic b = negb (is_ascii_digit b).
Proof.
  unfold is_ascii_digit, is_ascii_alphabetic.
  destruct (Z.leb_spec 48 b), (Z.leb_spec b 57), (Z.leb_spec 65 b), (Z.leb_spec b 90),
    (Z.leb_spec 97 b), (Z.leb_spec b 122); cbn; intros Hb; try reflexivity; try discriminate; lia.
Qed.

Lemma fold_left_push_units (os : list CigarOp) : forall acc : Cigar,
  fold_left push os acc = fold_left push_elem (map (fun o => MkElem o 1) os) acc.
Proof.
  induction os as [|o os IH]; intros acc; [reflexivity|]. apply IH.
Qed.

(** [parse_without_resolving] succeeds exactly when every byte is one of
    [M], [=], [X], [I], [D], and then groups the decoded ops as
    [from_ops] does. *)
Theorem parse_without_resolving_from_ops (s : list u8) :
  parse_without_resolving s = option_map from_ops (map_option CigarOp_from_u8 s).
Proof.
  unfold parse_without_resolving. rewrite parse_without_resolving_go_spec.
  destruct (map_option CigarOp_from_u8 s) as [os|]; [|reflexivity].
  cbn [option_map]. rewrite fold_push_from_ops. reflexivity.
Qed.

(** On a string without ASCII digits, [from_string] and
    [parse_without_resolving] agree (including on which strings panic). *)
Theorem from_string_without_digits (s : list u8)
    (H : forallb (fun b => negb (is_ascii_digit b)) s = true) :
  from_string s = parse_without_resolving s.
Proof.
  unfold from_string, split_inclusive, parse_without_resolving.
  rewrite split_inclusive_go_all by exact H. apply from_string_go_singletons.
Qed.

Lemma from_string_without_digits_witness :
  forallb (fun b => negb (is_ascii_digit b)) (bytes "MMXID=") = true /\
  from_string (bytes "MMXID=") = parse_without_resolving (bytes "MMXID=").
Proof.
  assert (H : forallb (fun b => negb (is_ascii_digit b)) (bytes "MMXID=") = true) by reflexivity.
  split; [exact H|]. exact (from_string_without_digits _ H).
Defined.

(** [parse_without_counts] is [parse_without_resolving] followed by
    [resolve_matches]: resolving the unit elements one by one gives the
    same Cigar as resolving their grouped runs. *)
Theorem parse_without_counts_resolves (s : list u8) (text pattern : Seq) :
  parse_without_counts s text pattern =
  match parse_without_resolving s with
  | None => None
  | Some c => resolve_matches (ops c) text pattern
  end.
Proof.
  unfold parse_without_counts, parse_without_resolving. rewrite parse_without_resolving_go_spec.
  destruct (map_option CigarOp_from_u8 s) as [os|]; [|reflexivity]. cbn [option_map].
  rewrite fold_left_push_units. unfold resolve_matches.
  rewrite resolve_go_fold_push_elem; [reflexivity | constructor |].
  apply Forall_map. apply Forall_forall. intros o _. cbn. lia.
Qed.

(** ** Lemmas on [to_char_pairs] *)

Lemma nth_error_skipn_cons {A : Type} (n : nat) : forall (l : list A) (a : A),
  nth_error l n = Some a -> skipn n l = a :: skipn (S n) l.
Proof.
  induction n as [|n IH]; intros [|x l] a H; cbn in *; try discriminate.
  - inversion H; reflexivity.
  - apply IH. exact H.
Qed.

Lemma index_skipn (t : Seq) (i : I) (a : u8) :
  index t i = Some a -> skipn (Z.to_nat i) t = a :: skipn (Z.to_nat (i + 1)) t.
Proof.
  unfold index, get. destruct (i <? 0) eqn:E; [discriminate|]. intros H.
  apply Z.ltb_ge in E. rewrite Z2Nat.inj_add by lia. change (Z.to_nat 1) with 1%nat.
  rewrite Nat.add_1_r. apply nth_error_skipn_cons. exact H.
Qed.

Lemma text_side_cons (ch : OpChars.CigarOpChars) (l : list OpChars.CigarOpChars) :
  text_side (ch :: l) = text_side [ch] ++ text_side l.
Proof. unfold text_side. cbn [flat_map]. rewrite app_nil_r. reflexivity. Qed.

(** A [Sub] pair is only produced for bytes that differ modulo ASCII case. *)
Definition sub_pair_ok (ch : OpChars.CigarOpChars) : Prop :=
  match ch with
  | OpChars.Sub a b => Z.land a fix_case <> Z.land b fix_case
  | _ => True
  end.

Lemma to_char_pair_spec (o : CigarOp) (t p : Seq) (pos : Pos) (ch : OpChars.CigarOpChars) :
  to_char_pair o t p pos = Some ch ->
  text_side [ch] ++ skipn (Z.to_nat (p0 (pos_add pos (delta o)))) t = skipn (Z.to_nat (p0 pos)) t /\
  Z.to_nat (p0 (pos_add pos (delta o))) = (Z.to_nat (p0 pos) + List.length (text_side [ch]))%nat /\
  sub_pair_ok ch.
Proof.
  assert (Hlen : forall i a, index t i = Some a -> Z.to_nat (i + 1) = (Z.to_nat i + 1)%nat).
  { intros i a. unfold index, get. destruct (i <? 0) eqn:E; [discriminate|].
    apply Z.ltb_ge in E. intros _. lia. }
  intros H. destruct o; cbn [to_char_pair] in H; unfold pos_add; cbn [delta p0].
  - destruct (index t (p0 pos)) as [a|] eqn:E; cbn [option_map] in H; inversion H; subst.
    unfold text_side; cbn [flat_map app List.length].
    rewrite (index_skipn _ _ _ E). split; [reflexivity|]. split; [exact (Hlen _ _ E) | exact Logic.I].
  - destruct (index t (p0 pos)) as [a|] eqn:E; [|discriminate].
    destruct (index p (p1 pos)) as [b|]; [|discriminate].
    destruct (Z.land a fix_case =? Z.land b fix_case) eqn:Eq; [discriminate|].
    inversion H; subst. unfold text_side; cbn [flat_map app List.length].
    rewrite (index_skipn _ _ _ E). split; [reflexivity|]. split; [exact (Hlen _ _ E)|].
    cbn [sub_pair_ok]. apply Z.eqb_neq. exact Eq.
  - destruct (index t (p0 pos)) as [a|] eqn:E; cbn [option_map] in H; inversion H; subst.
    unfold text_side; cbn [flat_map app List.length].
    rewrite (index_skipn _ _ _ E). split; [reflexivity|]. split; [exact (Hlen _ _ E) | exact Logic.I].
  - destruct (index p (p1 pos)) as [b|]; cbn [option_map] in H; inversion H; subst.
    unfold text_side; cbn [flat_map app List.length]. rewrite Z.add_0_r.
    split; [reflexivity|]. split; [lia | exact Logic.I].
Qed.

Lemma to_char_pairs_run_spec (o : CigarOp) (t p : Seq) (n : nat) :
  forall (pos : Pos) (out : list OpChars.CigarOpChars) (pos' : Pos),
  to_char_pairs_run n o t p pos = Some (out, pos') ->
  pos' = pos_end pos (repeat o n) /\ List.length out = n /\
  text_side out ++ skipn (Z.to_nat (p0 pos')) t = skipn (Z.to_nat (p0 pos)) t /\
  Z.to_nat (p0 pos') = (Z.to_nat (p0 pos) + List.length (text_side out))%nat /\
  Forall sub_pair_ok out.
Proof.
  induction n as [|n IH]; intros pos out pos' H; cbn [to_char_pairs_run] in H.
  - inversion H; subst. unfold text_side; cbn [flat_map app List.length].
    split; [reflexivity|]. split; [reflexivity|]. split; [reflexivity|]. split; [lia | constructor].
  - destruct (to_char_pair o t p pos) as [ch|] eqn:Ech; [|discriminate].
    destruct (to_char_pairs_run n o t p (pos_add pos (delta o))) as [[out1 pos1]|] eqn:Er;
      [|discriminate].
    inversion H; subst out pos1.
    destruct (to_char_pair_spec o t p pos ch Ech) as (T1 & L1 & S1).
    destruct (IH _ _ _ Er) as (Ep & Ln & T2 & L2 & F).
    split; [cbn [repeat]; rewrite pos_end_cons; exact Ep|].
    split; [cbn [List.length]; rewrite Ln; reflexivity|].
    rewrite text_side_cons, <- app_assoc, T2, T1. split; [reflexivity|].
    split; [rewrite L2, L1, length_app; lia|]. constructor; assumption.
Qed.

Lemma to_char_pairs_go_spec (t p : Seq) (els : list CigarElem) :
  forall (pos : Pos) (out : list OpChars.CigarOpChars),
  to_char_pairs_go t p pos els = Some out ->
  List.length out = List.length (expand els) /\
  text_side out ++ skipn (Z.to_nat (p0 (pos_end pos (expand els)))) t = skipn (Z.to_nat (p0 pos)) t /\
  Z.to_nat (p0 (pos_end pos (expand els))) = (Z.to_nat (p0 pos) + List.length (text_side out))%nat /\
  Forall sub_pair_ok out.
Proof.
  induction els as [|e els IH]; intros pos out H; cbn [to_char_pairs_go] in H.
  - inversion H; subst. unfold text_side, pos_end; cbn [flat_map app List.length fold_left expand].
    split; [reflexivity|]. split; [reflexivity|]. split; [lia | constructor].
  - destruct (to_char_pairs_run (Z.to_nat (cnt e)) (op e) t p pos) as [[out1 pos1]|] eqn:Er;
      [|discriminate].
    destruct (to_char_pairs_go t p pos1 els) as [out2|] eqn:Eg; [|discriminate].
    inversion H; subst out.
    destruct (to_char_pairs_run_spec _ _ _ _ _ _ _ Er) as (Ep & Ln & T1 & L1 & F1).
    destruct (IH _ _ Eg) as (Ln2 & T2 & L2 & F2).
    rewrite expand_cons, pos_end_app, <- Ep.
    unfold text_side in *. rewrite flat_map_app.
    split; [rewrite length_app, length_app, Ln, Ln2, repeat_length; reflexivity|].
    rewrite <- app_assoc, T2, T1. split; [reflexivity|].
    split; [rewrite L2, L1, length_app; lia|]. apply Forall_app. split; assumption.
Qed.

(** With non-negative counts, the text bytes of the pairs of
    [to_char_pairs] are the first [p0 (sum_delta)] bytes of the text, in
    order, and there is one pair per base. *)
Theorem to_char_pairs_text (c : Cigar) (text pattern : Seq) (out : list OpChars.CigarOpChars)
    (Hn : Forall (fun e => 0 <= cnt e) (ops c))
    (H : to_char_pairs c text pattern = Some out) :
  List.length out = List.length (expand (ops c)) /\
  text_side out = firstn (Z.to_nat (p0 (sum_delta (ops c)))) text.
Proof.
  unfold to_char_pairs in H. destruct (to_char_pairs_go_spec _ _ _ _ _ H) as (Ln & T & L & _).
  rewrite pos_end_expand, pos_add_0_l in T, L by exact Hn.
  cbn [p0 Z.to_nat skipn] in T, L. split; [exact Ln|].
  rewrite L, Nat.add_0_l. rewrite <- T. rewrite firstn_app, Nat.sub_diag, firstn_all.
  cbn [firstn]. rewrite app_nil_r. reflexivity.
Qed.

Lemma to_char_pairs_text_witness :
  Forall (fun e => 0 <= cnt e) (ops (MkCigar [MkElem Match 1; MkElem Sub 1; MkElem Ins 2; MkElem Del 1])) /\
  to_char_pairs (MkCigar [MkElem Match 1; MkElem Sub 1; MkElem Ins 2; MkElem Del 1])
    (bytes "acgt") (bytes "atccg") =
    Some [OpChars.Match 97; OpChars.Sub 99 116; OpChars.Ins 99; OpChars.Ins 99; OpChars.Del 103] /\
  List.length [OpChars.Match 97; OpChars.Sub 99 116; OpChars.Ins 99; OpChars.Ins 99; OpChars.Del 103]
    = List.length (expand (ops (MkCigar [MkElem Match 1; MkElem Sub 1; MkElem Ins 2; MkElem Del 1]))) /\
  text_side [OpChars.Match 97; OpChars.Sub 99 116; OpChars.Ins 99; OpChars.Ins 99; OpChars.Del 103]
    = firstn (Z.to_nat (p0 (sum_delta (ops (MkCigar [MkElem Match 1; MkElem Sub 1; MkElem Ins 2; MkElem Del 1])))))
        (bytes "acgt").
Proof.
  assert (Hn : Forall (fun e => 0 <= cnt e)
                 (ops (MkCigar [MkElem Match 1; MkElem Sub 1; MkElem Ins 2; MkElem Del 1]))).
  { repeat constructor; cbn; lia. }
  assert (H : to_char_pairs (MkCigar [MkElem Match 1; MkElem Sub 1; MkElem Ins 2; MkElem Del 1])
                (bytes "acgt") (bytes "atccg") =
              Some [OpChars.Match 97; OpChars.Sub 99 116; OpChars.Ins 99; OpChars.Ins 99; OpChars.Del 103])
    by (vm_compute; reflexivity).
  split; [exact Hn|]. split; [exact H|]. exact (to_char_pairs_text _ _ _ _ Hn H).
Defined.

(** Every [Sub] pair that [to_char_pairs] returns holds two bytes that
    differ even with the ASCII case bit cleared. *)
Theorem to_char_pairs_sub_differ (c : Cigar) (text pattern : Seq)
    (out : list OpChars.CigarOpChars) (a b : u8)
    (H : to_char_pairs c text pattern = Some out) (Hin : In (OpChars.Sub a b) out) :
  Z.land a fix_case <> Z.land b fix_case.
Proof.
  unfold to_char_pairs in H. destruct (to_char_pairs_go_spec _ _ _ _ _ H) as (_ & _ & _ & F).
  rewrite Forall_forall in F. exact (F _ Hin).
Qed.

Lemma to_char_pairs_sub_differ_witness :
  to_char_pairs (MkCigar [MkElem Sub 1]) (bytes "a") (bytes "c") = Some [OpChars.Sub 97 99] /\
  In (OpChars.Sub 97 99) [OpChars.Sub 97 99] /\
  Z.land 97 fix_case <> Z.land 99 fix_case.
Proof.
  assert (H : to_char_pairs (MkCigar [MkElem Sub 1]) (bytes "a") (bytes "c") = Some [OpChars.Sub 97 99])
    by (vm_compute; reflexivity).
  assert (Hin : In (OpChars.Sub 97 99) [OpChars.Sub 97 99]) by (left; reflexivity).
  split; [exact H|]. split; [exact Hin|]. exact (to_char_pairs_sub_differ _ _ _ _ _ _ H Hin).
Defined.

(** [from_path] compares bytes exactly while [to_char_pairs] compares them
    modulo ASCII case: two different bytes of the same letter give a [Sub]
    that [to_char_pairs] then rejects. *)
Theorem from_path_then_to_char_pairs_case (a b : u8)
    (Hne : a <> b) (Hcase : Z.land a fix_case = Z.land b fix_case) :
  from_path [a] [b] [MkPos 0 0; MkPos 1 1] = Some (MkCigar [MkElem Sub 1]) /\
  to_char_pairs (MkCigar [MkElem Sub 1]) [a] [b] = None.
Proof.
  split.
  - cbn. change (PosDef.Pos.to_nat 1) with 1%nat. cbn.
    destruct (Z.eqb_spec a b) as [E|E]; [contradiction|]. reflexivity.
  - unfold to_char_pairs. cbn [ops to_char_pairs_go cnt op]. change (Z.to_nat 1) with 1%nat.
    cbn [to_char_pairs_run to_char_pair]. unfold index, get. cbn -[fix_case]. rewrite Hcase, Z.eqb_refl. reflexivity.
Qed.

Lemma from_path_then_to_char_pairs_case_witness :
  97 <> 65 /\ Z.land 97 fix_case = Z.land 65 fix_case /\
  from_path [97] [65] [MkPos 0 0; MkPos 1 1] = Some (MkCigar [MkElem Sub 1]) /\
  to_char_pairs (MkCigar [MkElem Sub 1]) [97] [65] = None.
Proof.
  assert (Hne : 97 <> 65) by lia.
  assert (Hcase : Z.land 97 fix_case = Z.land 65 fix_case) by reflexivity.
  split; [exact Hne|]. split; [exact Hcase|]. exact (from_path_then_to_char_pairs_case _ _ Hne Hcase).
Defined.

(** ** Lemmas on the costs *)

Ltac wrap_inner :=
  repeat match goal with
  | |- context [wrap_i32 ?z] =>
      lazymatch z with
      | context [wrap_i32 _] => fail
      | _ => rewrite (wrap_small z) by (unfold i32_min, i32_max, OFFSET in *; lia)
      end
  end.

(** For costs [0 < sub], [0 <= open], [0 < extend] of at most [2^29], no
    operation of [from_costs] overflows, the factor is 1, 2 or 3, and the
    scores have the signs the fields document: [sub < 0], [open <= 0],
    [extend < 0], with [match = 2]. *)
Theorem from_costs_signs (cm : CostModel)
    (Hs : 0 < sub cm <= 2 ^ 29) (Ho : 0 <= open cm <= 2 ^ 29) (He : 0 < extend cm <= 2 ^ 29) :
  (factor (from_costs cm) = 1 \/ factor (from_costs cm) = 2 \/ factor (from_costs cm) = 3) /\
  r_match (from_costs cm) = 2 /\
  sm_sub (from_costs cm) = 2 - factor (from_costs cm) * sub cm /\
  sm_open (from_costs cm) = - (factor (from_costs cm) * open cm) /\
  sm_extend (from_costs cm) = 1 - factor (from_costs cm) * extend cm /\
  sm_sub (from_costs cm) < 0 /\ sm_open (from_costs cm) <= 0 /\ sm_extend (from_costs cm) < 0.
Proof.
  unfold from_costs. cbv zeta.
  destruct (Z.gtb_spec (sub cm) 2), (Z.gtb_spec (extend cm) 1); cbn [andb];
    try destruct (Z.eqb_spec (sub cm) 1);
    cbn [r_match sm_sub sm_open sm_extend factor]; wrap_inner; unfold OFFSET;
    repeat split; lia.
Qed.

Lemma from_costs_signs_witness :
  (0 < sub (MkCostModel 4 6 2) <= 2 ^ 29) /\ (0 <= open (MkCostModel 4 6 2) <= 2 ^ 29) /\
  (0 < extend (MkCostModel 4 6 2) <= 2 ^ 29) /\
  ((factor (from_costs (MkCostModel 4 6 2)) = 1 \/ factor (from_costs (MkCostModel 4 6 2)) = 2 \/
    factor (from_costs (MkCostModel 4 6 2)) = 3) /\
   r_match (from_costs (MkCostModel 4 6 2)) = 2 /\
   sm_sub (from_costs (MkCostModel 4 6 2)) = 2 - factor (from_costs (MkCostModel 4 6 2)) * sub (MkCostModel 4 6 2) /\
   sm_open (from_costs (MkCostModel 4 6 2)) = - (factor (from_costs (MkCostModel 4 6 2)) * open (MkCostModel 4 6 2)) /\
   sm_extend (from_costs (MkCostModel 4 6 2)) = 1 - factor (from_costs (MkCostModel 4 6 2)) * extend (MkCostModel 4 6 2) /\
   sm_sub (from_costs (MkCostModel 4 6 2)) < 0 /\ sm_open (from_costs (MkCostModel 4 6 2)) <= 0 /\
   sm_extend (from_costs (MkCostModel 4 6 2)) < 0).
Proof.
  assert (Hs : 0 < sub (MkCostModel 4 6 2) <= 2 ^ 29) by (cbn; lia).
  assert (Ho : 0 <= open (MkCostModel 4 6 2) <= 2 ^ 29) by (cbn; lia).
  assert (He : 0 < extend (MkCostModel 4 6 2) <= 2 ^ 29) by (cbn; lia).
  split; [exact Hs|]. split; [exact Ho|]. split; [exact He|].
  exact (from_costs_signs _ Hs Ho He).
Defined.

Lemma last_nonempty_default {A : Type} (l : list A) (d d' : A) :
  l <> [] -> last l d = last l d'.
Proof.
  induction l as [|a l IH]; intros H; [contradiction|].
  destruct l as [|b l]; [reflexivity|]. exact (IH ltac:(discriminate)).
Qed.

Lemma last_app_default {A : Type} (l1 l2 : list A) (d : A) :
  last (l1 ++ l2) d = last l2 (last l1 d).
Proof.
  revert d. induction l1 as [|a l1 IH]; intros d; [reflexivity|].
  cbn [app]. destruct l1 as [|b l1].
  - destruct l2 as [|c l2]; [reflexivity|]. cbn [app].
    change (last (a :: c :: l2) d) with (last (c :: l2) d).
    apply last_nonempty_default. discriminate.
  - change (last (a :: (b :: l1) ++ l2) d) with (last ((b :: l1) ++ l2) d).
    rewrite IH. reflexivity.
Qed.

Lemma spec_run_last (cm : CostModel) (pos : Pos) (cost : Cost) (e : CigarElem) (d : Pos * Cost) :
  1 <= cnt e ->
  snd (last (fst (spec_run cm pos cost e)) d) = snd (spec_run cm pos cost e) /\
  snd (spec_run cm pos cost e) = cost + elem_cost cm e.
Proof.
  destruct e as [o n]. cbn [cnt]. intros Hn.
  destruct (Z.to_nat n) as [|m] eqn:Em; [lia|].
  assert (En : n = Z.of_nat (S m)) by lia. subst n.
  unfold spec_run, elem_cost. cbn [op cnt]. rewrite Nat2Z.id.
  rewrite seq_S.
  destruct o; cbn [fst snd]; rewrite map_app; cbn [map]; rewrite last_last; cbn [snd]; split; lia.
Qed.

Lemma spec_trace_last (cm : CostModel) (els : list CigarElem) :
  forall (pos : Pos) (cost : Cost) (d : Pos * Cost),
  Forall (fun e => 1 <= cnt e) els -> snd d = cost ->
  snd (last (spec_trace cm pos cost els) d) = cost + total_cost cm els.
Proof.
  induction els as [|e els IH]; intros pos cost d Hn Hd.
  - cbn. lia.
  - apply Forall_cons_iff in Hn as [He Hn']. cbn [spec_trace total_cost fold_right].
    rewrite last_app_default.
    destruct (spec_run_last cm pos cost e d He) as [L1 L2].
    rewrite (IH _ (snd (spec_run cm pos cost e)) _ Hn' L1), L2.
    unfold total_cost. lia.
Qed.

(** ** Further lemmas on [reverse], [push_elem] and [parse] *)

Lemma coalesced_of_adjacent (l : list CigarElem) :
  (forall l1 s e l2, l = l1 ++ s :: e :: l2 -> op s <> op e) -> coalesced l = true.
Proof.
  induction l as [|a t IH]; intros H; [reflexivity|].
  destruct t as [|b t]; [reflexivity|].
  rewrite coalesced_cons. apply andb_true_iff. split.
  - destruct (CigarOp_eqb (op a) (op b)) eqn:E; [|reflexivity].
    apply CigarOp_eqb_spec in E. exfalso. exact (H [] a b t eq_refl E).
  - apply IH. intros l1 s e l2 Hl. apply (H (a :: l1) s e l2). rewrite Hl. reflexivity.
Qed.

(** [Cigar::reverse] keeps a coalesced Cigar coalesced, and its bases are
    those of the Cigar in reverse order. *)
Theorem reverse_coalesced (c : Cigar) (Hc : coalesced (ops c) = true) :
  coalesced (ops (reverse c)) = true /\ expand (ops (reverse c)) = rev (expand (ops c)).
Proof.
  split; [|apply expand_rev].
  apply coalesced_of_adjacent. cbn [reverse ops]. intros l1 s e l2 Hl Hse.
  assert (Hr : ops c = rev l2 ++ e :: s :: rev l1).
  { rewrite <- (rev_involutive (ops c)), Hl, rev_app_distr. cbn [rev].
    rewrite <- !app_assoc. reflexivity. }
  rewrite Hr in Hc. pose proof (coalesced_mid (rev l2) e s (rev l1) Hc) as Hm.
  rewrite Hse, CigarOp_eqb_refl in Hm. discriminate.
Qed.

Lemma reverse_coalesced_witness :
  coalesced (ops (MkCigar [MkElem Match 2; MkElem Sub 1; MkElem Match 3; MkElem Ins 1])) = true /\
  coalesced (ops (reverse (MkCigar [MkElem Match 2; MkElem Sub 1; MkElem Match 3; MkElem Ins 1]))) = true /\
  expand (ops (reverse (MkCigar [MkElem Match 2; MkElem Sub 1; MkElem Match 3; MkElem Ins 1])))
    = rev (expand (ops (MkCigar [MkElem Match 2; MkElem Sub 1; MkElem Match 3; MkElem Ins 1]))).
Proof.
  assert (Hc : coalesced (ops (MkCigar [MkElem Match 2; MkElem Sub 1; MkElem Match 3; MkElem Ins 1]))
               = true) by reflexivity.
  split; [exact Hc|]. exact (reverse_coalesced _ Hc).
Defined.

Lemma forallb_false_In {A : Type} (f : A -> bool) (l : list A) (x : A) :
  In x l -> f x = false -> forallb f l = false.
Proof.
  intros Hin Hx. destruct (forallb f l) eqn:E; [|reflexivity].
  rewrite forallb_forall in E. rewrite (E x Hin) in Hx. discriminate.
Qed.

Lemma map_option_None_In {A B : Type} (f : A -> option B) (l : list A) (x : A) :
  In x l -> f x = None -> map_option f l = None.
Proof.
  induction l as [|y l IH]; intros Hin Hx; [contradiction|]. cbn [map_option].
  destruct Hin as [<-|Hin].
  - rewrite Hx. reflexivity.
  - destruct (f y); [|reflexivity]. rewrite (IH Hin Hx). reflexivity.
Qed.

Lemma parse_i32_non_digit (l : list u8) (b : u8) :
  In b l -> is_ascii_digit b = false -> b <> 43 -> b <> 45 -> parse_i32 l = None.
Proof.
  intros Hin Hd H43 H45. destruct l as [|s r]; [reflexivity|]. unfold parse_i32.
  destruct (Z.eqb_spec s 43), (Z.eqb_spec s 45); unfold parse_digits_i32;
    try (subst s; destruct Hin as [Hin|Hin]; [congruence|]);
    try (destruct r as [|y r]; [reflexivity|]);
    rewrite (forallb_false_In _ _ b); try reflexivity; assumption.
Qed.

(** Between a [=] and the letter that ends its slice, [split_inclusive]
    keeps them in one slice. *)
Lemma split_inclusive_go_eq_slice (s2 : list u8) (x : u8) (rest : list u8)
    (H2 : forallb (fun b => negb (is_ascii_alphabetic b)) s2 = true)
    (Hx : is_ascii_alphabetic x = true) (s1 : list u8) :
  forall cur : list u8,
  exists pre, In (pre ++ 61 :: s2 ++ [x]) (split_inclusive_go is_ascii_alphabetic cur (s1 ++ 61 :: s2 ++ x :: rest)).
Proof.
  induction s1 as [|y s1 IH]; intros cur.
  - exists cur. rewrite app_nil_l. change (61 :: s2 ++ x :: rest) with ((61 :: s2) ++ x :: rest).
    rewrite (split_inclusive_go_app is_ascii_alphabetic (61 :: s2) cur x rest); [| exact H2 | exact Hx].
    left. reflexivity.
  - cbn [app split_inclusive_go]. destruct (is_ascii_alphabetic y).
    + destruct (IH []) as [pre Hpre]. exists pre. right. exact Hpre.
    + apply IH.
Qed.

(** [Cigar::parse] splits after each ASCII letter, so a [=] op is read as
    part of the count of the next letter's slice: whenever a [=] is
    followed, after any non-letters, by a letter, [parse] panics. *)
Theorem parse_eq_before_letter (s1 s2 rest : list u8) (x : u8) (text pattern : Seq)
    (H2 : forallb (fun b => negb (is_ascii_alphabetic b)) s2 = true)
    (Hx : is_ascii_alphabetic x = true) :
  parse (s1 ++ 61 :: s2 ++ x :: rest) text pattern = None.
Proof.
  unfold parse, split_inclusive.
  destruct (split_inclusive_go_eq_slice s2 x rest H2 Hx s1 []) as [pre Hin].
  rewrite (map_option_None_In _ _ _ Hin); [reflexivity|].
  unfold parse_count_piece.
  replace (pre ++ 61 :: s2 ++ [x]) with ((pre ++ 61 :: s2) ++ [x]) by (rewrite <- app_assoc; reflexivity).
  rewrite split_last_snoc.
  destruct (pre ++ 61 :: s2) as [|b r] eqn:E; [destruct pre; discriminate|].
  rewrite (parse_i32_non_digit (b :: r) 61); [reflexivity | | reflexivity | discriminate | discriminate].
  rewrite <- E. apply in_or_app. right. left. reflexivity.
Qed.

Lemma parse_eq_before_letter_witness :
  forallb (fun b => negb (is_ascii_alphabetic b)) (bytes "2") = true /\
  is_ascii_alphabetic 77 = true /\
  parse (bytes "3M" ++ 61 :: bytes "2" ++ 77 :: []) (bytes "aaaaa") (bytes "aaaaa") = None.
Proof.
  assert (H2 : forallb (fun b => negb (is_ascii_alphabetic b)) (bytes "2") = true) by reflexivity.
  assert (Hx : is_ascii_alphabetic 77 = true) by reflexivity.
  split; [exact H2|]. split; [exact Hx|]. exact (parse_eq_before_letter _ _ _ _ _ _ H2 Hx).
Defined.

(** ** Lemmas on the [i32] wrap-around *)

Lemma wrapping_add_small (a b : Z) : i32_min <= a + b <= i32_max -> wrapping_add a b = a + b.
Proof. intros H. unfold wrapping_add. apply wrap_small. exact H. Qed.

Lemma wrapping_mul_small (a b : Z) : i32_min <= a * b <= i32_max -> wrapping_mul a b = a * b.
Proof. intros H. unfold wrapping_mul. apply wrap_small. exact H. Qed.

Lemma push_elem_ops_wrap_cons (a : CigarElem) (t : list CigarElem) (e : CigarElem) :
  t <> [] -> push_elem_ops_wrap (a :: t) e = a :: push_elem_ops_wrap t e.
Proof. destruct t; [congruence | reflexivity]. Qed.

Lemma push_elem_ops_wrap_snoc (l : list CigarElem) (s e : CigarElem) :
  push_elem_ops_wrap (l ++ [s]) e =
  l ++ (if CigarOp_eqb (op s) (op e) then [MkElem (op s) (wrapping_add (cnt s) (cnt e))]
        else [s; e]).
Proof.
  induction l as [|a l IH]; [reflexivity|].
  simpl app. rewrite push_elem_ops_wrap_cons by (destruct l; discriminate).
  rewrite IH. reflexivity.
Qed.

(** Where no merged count leaves the [i32] range, the wrapping merge is the
    exact one. *)
Lemma push_elem_ops_wrap_eq (l : list CigarElem) (e : CigarElem) :
  Forall (fun x => i32_min <= cnt x <= i32_max) (push_elem_ops l e) ->
  push_elem_ops_wrap l e = push_elem_ops l e.
Proof.
  induction l as [|s t IH]; intros H; [reflexivity|].
  destruct t as [|s' t'].
  - cbn [push_elem_ops push_elem_ops_wrap] in *.
    destruct (CigarOp_eqb (op s) (op e)); [|reflexivity].
    apply Forall_cons_iff in H as [Hs _]. cbn [cnt] in Hs.
    rewrite wrapping_add_small by exact Hs. reflexivity.
  - rewrite push_elem_ops_cons in H by discriminate.
    rewrite push_elem_ops_wrap_cons, push_elem_ops_cons by discriminate.
    apply Forall_cons_iff in H as [_ Ht]. rewrite IH by exact Ht. reflexivity.
Qed.

Lemma push_elem_ops_bound_inv (l : list CigarElem) (e : CigarElem) (M : Z) :
  Forall (fun x => 0 <= cnt x) l -> 0 <= cnt e ->
  Forall (fun x => cnt x <= M) (push_elem_ops l e) -> Forall (fun x => cnt x <= M) l.
Proof.
  induction l as [|s t IH]; intros Hl He H; [constructor|].
  apply Forall_cons_iff in Hl as [Hs Ht].
  destruct t as [|s' t'].
  - cbn [push_elem_ops] in H. destruct (CigarOp_eqb (op s) (op e)).
    + apply Forall_cons_iff in H as [H _]. cbn [cnt] in H. constructor; [lia | constructor].
    + apply Forall_cons_iff in H as [H _]. constructor; [exact H | constructor].
  - rewrite push_elem_ops_cons in H by discriminate.
    apply Forall_cons_iff in H as [H1 H2]. constructor; [exact H1 | apply IH; assumption].
Qed.

Lemma fold_push_elem_nonneg (els : list CigarElem) : forall c : Cigar,
  Forall (fun x => 0 <= cnt x) (ops c) -> Forall (fun x => 0 <= cnt x) els ->
  Forall (fun x => 0 <= cnt x) (ops (fold_left push_elem els c)).
Proof.
  induction els as [|e els IH]; intros c Hc He; [exact Hc|].
  apply Forall_cons_iff in He as [He0 Hes]. cbn [fold_left]. apply IH; [|exact Hes].
  exact (proj1 (push_elem_ops_measures (ops c) e Hc He0)).
Qed.

Lemma fold_push_elem_bound_inv (els : list CigarElem) (M : Z) : forall c : Cigar,
  Forall (fun x => 0 <= cnt x) (ops c) -> Forall (fun x => 0 <= cnt x) els ->
  Forall (fun x => cnt x <= M) (ops (fold_left push_elem els c)) ->
  Forall (fun x => cnt x <= M) (ops c).
Proof.
  induction els as [|e els IH]; intros c Hc He H; [exact H|].
  apply Forall_cons_iff in He as [He0 Hes]. cbn [fold_left] in H.
  apply (push_elem_ops_bound_inv (ops c) e M Hc He0).
  exact (IH (push_elem c e) (proj1 (push_elem_ops_measures (ops c) e Hc He0)) Hes H).
Qed.

Lemma fold_push_elem_wrap_eq (els : list CigarElem) : forall c : Cigar,
  Forall (fun x => 0 <= cnt x) (ops c) -> Forall (fun x => 0 <= cnt x) els ->
  Forall (fun x => cnt x <= i32_max) (ops (fold_left push_elem els c)) ->
  fold_left push_elem_wrap els c = fold_left push_elem els c.
Proof.
  induction els as [|e els IH]; intros c Hc He H; [reflexivity|].
  apply Forall_cons_iff in He as [He0 Hes]. cbn [fold_left] in *.
  pose proof (proj1 (push_elem_ops_measures (ops c) e Hc He0)) as Hn.
  assert (Hp : push_elem_wrap c e = push_elem c e).
  { unfold push_elem_wrap, push_elem. f_equal. apply push_elem_ops_wrap_eq.
    pose proof (fold_push_elem_bound_inv els i32_max (push_elem c e) Hn Hes H) as Hm.
    unfold push_elem in Hm. cbn [ops] in Hm.
    rewrite Forall_forall in Hn, Hm |- *. intros x Hx.
    specialize (Hn x Hx). specialize (Hm x Hx). unfold i32_min. lia. }
  rewrite Hp. apply IH; [exact Hn | exact Hes | exact H].
Qed.

Lemma from_string_go_wrap_spec (pieces : list (list u8)) : forall c : Cigar,
  from_string_go_wrap c pieces =
  option_map (fun els => fold_left push_elem_wrap els c) (map_option parse_piece pieces).
Proof.
  induction pieces as [|pc pieces IH]; intros c; [reflexivity|].
  cbn [from_string_go_wrap map_option]. destruct (parse_piece pc) as [e|]; [|reflexivity].
  rewrite IH. destruct (map_option parse_piece pieces); reflexivity.
Qed.

Lemma from_string_pieces_nonneg (s : list u8) (els : list CigarElem) :
  map_option parse_piece (split_inclusive_go (fun b => negb (is_ascii_digit b)) [] s) = Some els ->
  Forall (fun x => 0 <= cnt x) els.
Proof.
  intros E.
  pose proof (split_inclusive_go_shape (fun b => negb (is_ascii_digit b)) s [] eq_refl) as Hs.
  apply (map_option_Forall parse_piece _
           (split_inclusive_go (fun b => negb (is_ascii_digit b)) [] s) els); [|exact E].
  intros pc e Hpc He. rewrite Forall_forall in Hs. destruct (Hs pc Hpc) as (init & x & -> & Hi).
  exact (parse_piece_nonneg init x e Hi He).
Qed.

(** When every count of its result fits in [i32], [from_string] computes
    the same Cigar with [i32] merges. *)
Lemma from_string_wrap_eq (s : list u8) (c : Cigar) :
  from_string s = Some c -> Forall (fun x => cnt x <= i32_max) (ops c) ->
  from_string_wrap s = Some c.
Proof.
  unfold from_string, from_string_wrap, split_inclusive. intros H Hb.
  rewrite from_string_go_spec in H. rewrite from_string_go_wrap_spec.
  destruct (map_option parse_piece _) as [els|] eqn:E; [|discriminate].
  cbn [option_map] in *. injection H as Hc.
  rewrite fold_push_elem_wrap_eq;
    [rewrite Hc; reflexivity | constructor | exact (from_string_pieces_nonneg s els E) |
     rewrite Hc; exact Hb].
Qed.

Lemma sum_delta_cons (e : CigarElem) (l : list CigarElem) :
  sum_delta (e :: l) = pos_add (pos_mul (delta (op e)) (cnt e)) (sum_delta l).
Proof. reflexivity. Qed.

Lemma sum_delta_nonneg (l : list CigarElem) :
  Forall (fun x => 0 <= cnt x) l -> 0 <= p0 (sum_delta l) /\ 0 <= p1 (sum_delta l).
Proof.
  induction l as [|e l IH]; intros H; [cbn; lia|].
  apply Forall_cons_iff in H as [He Hl]. destruct (IH Hl) as [H0 H1].
  rewrite sum_delta_cons. unfold pos_add, pos_mul. cbn [p0 p1].
  destruct (op e); cbn [delta p0 p1]; lia.
Qed.

(** On non-negative counts, every count is at most one of the components
    of the summed delta. *)
Lemma cnt_le_sum_delta (l : list CigarElem) :
  Forall (fun x => 0 <= cnt x) l ->
  Forall (fun x => cnt x <= p0 (sum_delta l) \/ cnt x <= p1 (sum_delta l)) l.
Proof.
  induction l as [|e l IH]; intros H; [constructor|].
  apply Forall_cons_iff in H as [He Hl]. destruct (sum_delta_nonneg l Hl) as [H0 H1].
  specialize (IH Hl). rewrite sum_delta_cons. unfold pos_add, pos_mul. cbn [p0 p1].
  constructor.
  - destruct (op e); cbn [delta p0 p1]; lia.
  - eapply Forall_impl in IH; [exact IH|]. intros x Hx. cbv beta in Hx |- *.
    destruct (op e); cbn [delta p0 p1]; lia.
Qed.

Lemma counts_fit_of_sum_delta (l : list CigarElem) :
  Forall (fun x => 0 <= cnt x) l -> p0 (sum_delta l) <= i32_max -> p1 (sum_delta l) <= i32_max ->
  Forall (fun x => i32_min <= cnt x <= i32_max) l.
Proof.
  intros Hn H0 H1. pose proof (cnt_le_sum_delta l Hn) as Hk.
  rewrite Forall_forall in Hn, Hk |- *. intros x Hx. specialize (Hn x Hx). specialize (Hk x Hx).
  unfold i32_min, i32_max in *. lia.
Qed.

Lemma push_elem_wrap_eq (c : Cigar) (e : CigarElem) :
  Forall (fun x => 0 <= cnt x) (ops c) -> 0 <= cnt e ->
  p0 (sum_delta (ops (push_elem c e))) <= i32_max ->
  p1 (sum_delta (ops (push_elem c e))) <= i32_max ->
  push_elem_wrap c e = push_elem c e.
Proof.
  intros Hc He H0 H1. destruct (push_elem_ops_measures (ops c) e Hc He) as (Hn & _).
  unfold push_elem_wrap, push_elem in *. cbn [ops] in *. f_equal.
  apply push_elem_ops_wrap_eq. apply counts_fit_of_sum_delta; assumption.
Qed.

Lemma fold_push_elem_sum_delta (els : list CigarElem) : forall c : Cigar,
  Forall (fun x => 0 <= cnt x) (ops c) -> Forall (fun x => 0 <= cnt x) els ->
  sum_delta (ops (fold_left push_elem els c)) = pos_add (sum_delta (ops c)) (sum_delta els).
Proof.
  induction els as [|e els IH]; intros c Hc He.
  - cbn [fold_left]. change (sum_delta []) with (MkPos 0 0).
    destruct (sum_delta (ops c)). unfold pos_add. cbn [p0 p1]. f_equal; lia.
  - apply Forall_cons_iff in He as [He0 Hes]. cbn [fold_left].
    destruct (push_elem_ops_measures (ops c) e Hc He0) as (Hn & _ & Hs & _).
    rewrite IH by assumption. unfold push_elem. cbn [ops]. rewrite Hs, sum_delta_cons.
    destruct (sum_delta (ops c)), (sum_delta els), (delta (op e)).
    unfold pos_add, pos_mul. cbn [p0 p1]. f_equal; lia.
Qed.

Lemma resolve_match_loop_inv (text pattern : Seq) (n : nat) :
  forall (pos pos' : Pos) (acc acc' : Cigar),
  resolve_match_loop n text pattern pos acc = Some (pos', acc') ->
  Forall (fun x => 0 <= cnt x) (ops acc) ->
  pos' = pos_add pos (MkPos (Z.of_nat n) (Z.of_nat n)) /\
  Forall (fun x => 0 <= cnt x) (ops acc') /\
  sum_delta (ops acc') = pos_add (sum_delta (ops acc)) (MkPos (Z.of_nat n) (Z.of_nat n)).
Proof.
  induction n as [|n IH]; intros pos pos' acc acc' H Hacc; cbn [resolve_match_loop] in H.
  - injection H as <- <-. split; [|split; [exact Hacc|]].
    + destruct pos. unfold pos_add. cbn [p0 p1]. f_equal; lia.
    + destruct (sum_delta (ops acc)). unfold pos_add. cbn [p0 p1]. f_equal; lia.
  - destruct (index text (p0 pos)) as [a|], (index pattern (p1 pos)) as [b|]; try discriminate.
    assert (Hd : delta (if a =? b then Match else Sub) = MkPos 1 1)
      by (destruct (a =? b); reflexivity).
    destruct (push_elem_ops_measures (ops acc) (MkElem (if a =? b then Match else Sub) 1) Hacc
                ltac:(cbn; lia)) as (Hn & _ & Hs & _).
    cbn [op cnt] in Hs. rewrite Hd in Hs.
    apply IH in H as (Ep & Hn' & Hs'); [|exact Hn].
    split; [|split; [exact Hn'|]].
    + rewrite Ep. destruct pos. unfold pos_add. cbn [p0 p1 delta]. f_equal; lia.
    + rewrite Hs'. unfold push, push_elem. cbn [ops]. rewrite Hs.
      destruct (sum_delta (ops acc)). unfold pos_add, pos_mul. cbn [p0 p1]. f_equal; lia.
Qed.

Lemma resolve_match_loop_wrap_eq (text pattern : Seq) (n : nat) : forall (acc : Cigar),
  Forall (fun x => 0 <= cnt x) (ops acc) ->
  p0 (sum_delta (ops acc)) + Z.of_nat n <= i32_max ->
  p1 (sum_delta (ops acc)) + Z.of_nat n <= i32_max ->
  resolve_match_loop_wrap n text pattern (sum_delta (ops acc)) acc =
  resolve_match_loop n text pattern (sum_delta (ops acc)) acc.
Proof.
  induction n as [|n IH]; intros acc Hacc H0 H1; [reflexivity|].
  cbn [resolve_match_loop_wrap resolve_match_loop].
  destruct (index text (p0 (sum_delta (ops acc)))) as [a|],
    (index pattern (p1 (sum_delta (ops acc)))) as [b|]; try reflexivity.
  assert (Hd : delta (if a =? b then Match else Sub) = MkPos 1 1)
    by (destruct (a =? b); reflexivity).
  destruct (sum_delta_nonneg _ Hacc) as [N0 N1].
  destruct (push_elem_ops_measures (ops acc) (MkElem (if a =? b then Match else Sub) 1) Hacc
              ltac:(cbn; lia)) as (Hn & _ & Hs & _).
  cbn [op cnt] in Hs. rewrite Hd in Hs.
  assert (Hps : sum_delta (ops (push acc (if a =? b then Match else Sub))) =
                pos_add (sum_delta (ops acc)) (delta Match)).
  { unfold push, push_elem. cbn [ops]. rewrite Hs.
    destruct (sum_delta (ops acc)). unfold pos_add, pos_mul. cbn [p0 p1 delta]. f_equal; lia. }
  assert (Hq : pos_wrapping_add (sum_delta (ops acc)) (delta Match) =
               pos_add (sum_delta (ops acc)) (delta Match)).
  { unfold pos_wrapping_add, pos_add. cbn [delta p0 p1].
    rewrite !wrapping_add_small by (unfold i32_min, i32_max in *; lia). reflexivity. }
  assert (Hw : push_wrap acc (if a =? b then Match else Sub) =
               push acc (if a =? b then Match else Sub)).
  { unfold push_wrap, push. apply push_elem_wrap_eq; [exact Hacc | cbn; lia | |];
      fold (push acc (if a =? b then Match else Sub)); rewrite Hps;
      unfold pos_add; cbn [delta p0 p1]; lia. }
  rewrite Hq, Hw, <- Hps. apply IH; [exact Hn | |]; rewrite Hps; unfold pos_add; cbn [delta p0 p1];
    lia.
Qed.

(** Where the end point of the stream fits in [i32], [resolve_matches] with
    [i32] positions and counts computes what the exact model does. *)
Lemma resolve_go_wrap_eq (text pattern : Seq) (els : list CigarElem) : forall (acc : Cigar),
  Forall (fun x => 0 <= cnt x) (ops acc) -> Forall (fun x => 0 <= cnt x) els ->
  p0 (pos_add (sum_delta (ops acc)) (sum_delta els)) <= i32_max ->
  p1 (pos_add (sum_delta (ops acc)) (sum_delta els)) <= i32_max ->
  resolve_go_wrap text pattern (sum_delta (ops acc)) acc els =
  resolve_go text pattern (sum_delta (ops acc)) acc els.
Proof.
  induction els as [|[o n] els IH]; intros acc Hacc Hels H0 H1; [reflexivity|].
  apply Forall_cons_iff in Hels as [Hn Hels]. cbn [cnt] in Hn.
  destruct (sum_delta_nonneg _ Hacc) as [N0 N1].
  destruct (sum_delta_nonneg _ Hels) as [R0 R1].
  rewrite sum_delta_cons in H0, H1. unfold pos_add, pos_mul in H0, H1. cbn [p0 p1 op cnt] in H0, H1.
  assert (Hstep : o <> Match ->
    resolve_go_wrap text pattern
      (pos_wrapping_add (sum_delta (ops acc)) (pos_wrapping_mul (delta o) n))
      (push_elem_wrap acc (MkElem o n)) els =
    resolve_go text pattern (pos_add (sum_delta (ops acc)) (pos_mul (delta o) n))
      (push_elem acc (MkElem o n)) els).
  { intros Ho.
    destruct (push_elem_ops_measures (ops acc) (MkElem o n) Hacc Hn) as (Hn' & _ & Hs & _).
    cbn [op cnt] in Hs.
    assert (Hps : sum_delta (ops (push_elem acc (MkElem o n))) =
                  pos_add (sum_delta (ops acc)) (pos_mul (delta o) n))
      by (unfold push_elem; cbn [ops]; exact Hs).
    assert (Hq : pos_wrapping_add (sum_delta (ops acc)) (pos_wrapping_mul (delta o) n) =
                 pos_add (sum_delta (ops acc)) (pos_mul (delta o) n)).
    { unfold pos_wrapping_add, pos_wrapping_mul, pos_add, pos_mul.
      destruct o; [congruence| | |]; cbn [delta p0 p1] in *;
        rewrite !wrapping_mul_small by (unfold i32_min, i32_max in *; lia);
        rewrite !wrapping_add_small by (unfold i32_min, i32_max in *; lia); reflexivity. }
    assert (Hw : push_elem_wrap acc (MkElem o n) = push_elem acc (MkElem o n)).
    { apply push_elem_wrap_eq; [exact Hacc | exact Hn | |]; rewrite Hps;
        unfold pos_add, pos_mul; cbn [p0 p1]; lia. }
    rewrite Hq, Hw, <- Hps. apply IH; [exact Hn' | exact Hels | |]; rewrite Hps;
      unfold pos_add, pos_mul; cbn [p0 p1]; lia. }
  destruct o; cbn [resolve_go_wrap resolve_go]; [|apply Hstep; discriminate ..].
  cbn [delta p0 p1] in H0, H1.
  rewrite resolve_match_loop_wrap_eq
    by (first [exact Hacc | rewrite Z2Nat.id by exact Hn; lia]).
  destruct (resolve_match_loop _ _ _ _ _) as [[pos' acc']|] eqn:E; [|reflexivity].
  apply resolve_match_loop_inv in E as (Ep & Hn' & Hs'); [|exact Hacc].
  rewrite Z2Nat.id in Ep, Hs' by exact Hn.
  assert (Hp : pos' = sum_delta (ops acc')) by (rewrite Ep, Hs'; reflexivity).
  rewrite Hp. apply IH; [exact Hn' | exact Hels | |]; rewrite Hs'; unfold pos_add; cbn [p0 p1]; lia.
Qed.

Lemma resolve_matches_wrap_eq (els : list CigarElem) (text pattern : Seq) :
  Forall (fun x => 0 <= cnt x) els ->
  p0 (sum_delta els) <= i32_max -> p1 (sum_delta els) <= i32_max ->
  resolve_matches_wrap els text pattern = resolve_matches els text pattern.
Proof.
  intros Hn H0 H1. unfold resolve_matches_wrap, resolve_matches.
  apply (resolve_go_wrap_eq text pattern els (MkCigar [])); [constructor | exact Hn | |];
    rewrite pos_add_0_l; assumption.
Qed.

Lemma total_cost_nonneg (cm : CostModel) (els : list CigarElem) :
  0 <= sub cm -> 0 <= open cm -> 0 <= extend cm -> Forall (fun x => 0 <= cnt x) els ->
  0 <= total_cost cm els.
Proof.
  intros Hs Ho He. induction els as [|e els IH]; intros H; [cbn; lia|].
  apply Forall_cons_iff in H as [H0 H]. specialize (IH H).
  change (total_cost cm (e :: els)) with (elem_cost cm e + total_cost cm els).
  assert (0 <= elem_cost cm e); [|lia].
  unfold elem_cost. destruct (op e); [lia | | |]; apply Z.add_nonneg_nonneg || idtac;
    try apply Z.mul_nonneg_nonneg; lia.
Qed.

Lemma twc_sub_wrap_eq (n : nat) (cm : CostModel) (d : Pos) : forall (pos : Pos) (cost : Cost),
  0 <= cost -> 0 <= sub cm -> cost + Z.of_nat n * sub cm <= i32_max ->
  twc_sub_wrap n cm d pos cost = twc_sub n cm d pos cost.
Proof.
  induction n as [|n IH]; intros pos cost Hc Hs H; [reflexivity|].
  rewrite Nat2Z.inj_succ, Z.mul_succ_l in H.
  assert (0 <= Z.of_nat n * sub cm) by (apply Z.mul_nonneg_nonneg; lia).
  cbn [twc_sub_wrap twc_sub].
  rewrite wrapping_add_small by (unfold i32_min in *; lia).
  rewrite IH by lia. reflexivity.
Qed.

Lemma twc_gap_wrap_eq (n : nat) (g g' : I -> Cost) (d : Pos) (cost : Cost) :
  forall (len : I) (pos : Pos),
  (forall k, len <= k < len + Z.of_nat n -> g' k = g k /\ i32_min <= cost + g k <= i32_max) ->
  twc_gap_wrap n g' len d pos cost = twc_gap n g len d pos cost.
Proof.
  induction n as [|n IH]; intros len pos H; [reflexivity|].
  cbn [twc_gap_wrap twc_gap].
  destruct (H len ltac:(lia)) as [Hg Hr]. rewrite Hg, (wrapping_add_small _ _ Hr).
  rewrite IH; [reflexivity|]. intros k Hk. apply H. lia.
Qed.

Lemma ins_wrap_eq (cm : CostModel) (k : I) :
  0 <= open cm -> 0 <= extend cm -> 0 <= k -> open cm + k * extend cm <= i32_max ->
  ins_wrap cm k = ins cm k /\ del_wrap cm k = del cm k.
Proof.
  intros Ho He Hk H. assert (0 <= k * extend cm) by (apply Z.mul_nonneg_nonneg; lia).
  unfold ins_wrap, del_wrap, ins, del.
  rewrite wrapping_mul_small by (unfold i32_min, i32_max in *; lia).
  rewrite wrapping_add_small by (unfold i32_min, i32_max in *; lia). split; reflexivity.
Qed.

(** On a cost model and counts that are non-negative, where the total cost
    fits in [i32], the [i32] costs of [to_path_with_costs] are the exact
    ones. *)
Lemma twc_go_wrap_eq (cm : CostModel) (els : list CigarElem) : forall (pos : Pos) (cost : Cost),
  0 <= sub cm -> 0 <= open cm -> 0 <= extend cm ->
  Forall (fun x => 0 <= cnt x) els -> 0 <= cost -> cost + total_cost cm els <= i32_max ->
  twc_go_wrap cm pos cost els = twc_go cm pos cost els.
Proof.
  induction els as [|[o n] els IH]; intros pos cost Hs Ho He Hn Hc Ht; [reflexivity|].
  apply Forall_cons_iff in Hn as [Hn0 Hn]. cbn [cnt] in Hn0.
  pose proof (total_cost_nonneg cm els Hs Ho He Hn) as Hr.
  change (total_cost cm (MkElem o n :: els)) with (elem_cost cm (MkElem o n) + total_cost cm els)
    in Ht.
  unfold elem_cost in Ht. cbn [op cnt] in Ht.
  assert (Hk : forall k, 0 <= k <= n -> 0 <= k * extend cm <= n * extend cm)
    by (intros k Hk'; split; [apply Z.mul_nonneg_nonneg | apply Z.mul_le_mono_nonneg_r]; lia).
  destruct o; cbn [twc_go_wrap twc_go].
  - destruct (twc_match _ _ _ _) as [out pos']. rewrite IH by (first [assumption | lia]).
    reflexivity.
  - rewrite Z2Nat.id in Ht by exact Hn0.
    assert (0 <= n * sub cm) by (apply Z.mul_nonneg_nonneg; lia).
    rewrite twc_sub_wrap_eq by (rewrite ?Z2Nat.id by exact Hn0; lia).
    rewrite twc_sub_spec. rewrite IH; [reflexivity | assumption .. | | ];
      rewrite Z2Nat.id by exact Hn0; lia.
  - destruct (Hk n ltac:(lia)) as [Hk0 _].
    rewrite (twc_gap_wrap_eq _ (del cm)).
    2: { intros k Hk'. rewrite Z2Nat.id in Hk' by exact Hn0. destruct (Hk k ltac:(lia)).
         split; [apply (ins_wrap_eq cm k); lia | unfold del, i32_min; lia]. }
    destruct (twc_gap _ _ _ _ _ _) as [out pos'].
    rewrite (proj2 (ins_wrap_eq cm n Ho He Hn0 ltac:(lia))).
    rewrite wrapping_add_small by (unfold del, i32_min in *; lia).
    rewrite IH by (first [assumption | unfold del; lia]). reflexivity.
  - destruct (Hk n ltac:(lia)) as [Hk0 _].
    rewrite (twc_gap_wrap_eq _ (ins cm)).
    2: { intros k Hk'. rewrite Z2Nat.id in Hk' by exact Hn0. destruct (Hk k ltac:(lia)).
         split; [apply (ins_wrap_eq cm k); lia | unfold ins, i32_min; lia]. }
    destruct (twc_gap _ _ _ _ _ _) as [out pos'].
    rewrite (proj1 (ins_wrap_eq cm n Ho He Hn0 ltac:(lia))).
    rewrite wrapping_add_small by (unfold ins, i32_min in *; lia).
    rewrite IH by (first [assumption | unfold ins; lia]). reflexivity.
Qed.

(** ** Claims on the [i32] arithmetic of the builders and path functions *)

(** C4 (as amended): [from_string] reads a string made of tokens (ASCII
    digits, possibly none, then one of [M = X I D]) token by token: the op
    is given by the table [M]/[=] Match, [X] Sub, [I] Ins, [D] Del, the
    count is the digits' decimal value or [1] when there are none, and the
    elements are merged by [push_elem], which adds the counts of adjacent
    same-op runs; this holds as long as every accumulated count stays at
    most [i32::MAX] (the [i32] addition [s.cnt += e.cnt] is exact exactly
    there). In particular ["=XIDDD"] and ["24="] parse as stated. *)
Theorem C4_from_string_grammar (toks : list (list u8 * u8)) (H : Forall token_ok toks)
    (Hb : Forall (fun e => cnt e <= i32_max)
            (ops (fold_left push_elem (map spec_token toks) (MkCigar [])))) :
  from_string_wrap (flat_map token_bytes toks)
    = Some (fold_left push_elem (map spec_token toks) (MkCigar [])) /\
  (forall (l : list CigarElem) (s e : CigarElem), op s = op e ->
     i32_min <= cnt s + cnt e <= i32_max ->
     push_elem_wrap (MkCigar (l ++ [s])) e = MkCigar (l ++ [MkElem (op s) (cnt s + cnt e)])) /\
  from_string_wrap (bytes "=XIDDD")
    = Some (MkCigar [MkElem Match 1; MkElem Sub 1; MkElem Ins 1; MkElem Del 3]) /\
  from_string_wrap (bytes "24=") = Some (MkCigar [MkElem Match 24]).
Proof.
  split; [apply from_string_wrap_eq; [apply from_string_tokens; exact H | exact Hb]|].
  split; [|split; reflexivity].
  intros l s e Hse Hr. unfold push_elem_wrap; cbn [ops].
  rewrite push_elem_ops_wrap_snoc, Hse, CigarOp_eqb_refl, wrapping_add_small by exact Hr.
  reflexivity.
Qed.

Lemma C4_witness :
  (Forall token_ok [([50; 52], 77); ([], 88); ([51], 77)] /\
   Forall (fun e => cnt e <= i32_max)
     (ops (fold_left push_elem (map spec_token [([50; 52], 77); ([], 88); ([51], 77)])
             (MkCigar [])))) /\
  from_string_wrap (bytes "24MX3M")
    = Some (fold_left push_elem (map spec_token [([50; 52], 77); ([], 88); ([51], 77)])
              (MkCigar [])).
Proof.
  assert (H : Forall token_ok [([50; 52], 77); ([], 88); ([51], 77)]).
  { repeat apply Forall_cons; try apply Forall_nil;
      (split; [reflexivity | split; [simpl; tauto | apply Z.leb_le; reflexivity]]). }
  assert (Hb : Forall (fun e => cnt e <= i32_max)
                 (ops (fold_left push_elem (map spec_token [([50; 52], 77); ([], 88); ([51], 77)])
                         (MkCigar [])))).
  { apply Forall_forall. intros x Hx. vm_compute in Hx.
    repeat (destruct Hx as [<-|Hx]; [apply Z.leb_le; reflexivity|]). destruct Hx. }
  split; [split; [exact H | exact Hb]|].
  exact (proj1 (C4_from_string_grammar _ H Hb)).
Defined.

(** C4, as first stated, fails when an accumulated count passes
    [i32::MAX]: on ["2147483647M1M"] the accumulated count is 2^31, and
    the [i32] merge wraps it to -2^31 (a debug build panics). *)
Lemma C4_counterexample :
  Forall token_ok [(bytes "2147483647", 77); ([49], 77)] /\
  flat_map token_bytes [(bytes "2147483647", 77); ([49], 77)] = bytes "2147483647M1M" /\
  fold_left push_elem (map spec_token [(bytes "2147483647", 77); ([49], 77)]) (MkCigar [])
    = MkCigar [MkElem Match 2147483648] /\
  from_string_wrap (bytes "2147483647M1M") = Some (MkCigar [MkElem Match (-2147483648)]).
Proof.
  split.
  { repeat apply Forall_cons; try apply Forall_nil;
      (split; [reflexivity | split; [simpl; tauto | apply Z.leb_le; reflexivity]]). }
  split; [reflexivity|]. split; vm_compute; reflexivity.
Defined.

(** C5 (as amended): on a cost model with non-negative costs (as
    [CostModel] requires) and a Cigar with non-negative counts whose total
    cost fits in [i32], [to_path_with_costs] is the start point followed by
    the trace the spec describes: Match entries keep the running cost, each
    Sub base adds [sub], the k-th base of an Ins/Del run carries the run's
    starting cost plus [open + k * extend], and the running cost grows by
    [open + L * extend] only after the whole run. *)
Theorem C5_to_path_with_costs_trace (c : Cigar) (cm : CostModel)
    (Hcm : 0 <= sub cm /\ 0 <= open cm /\ 0 <= extend cm)
    (Hn : Forall (fun e => 0 <= cnt e) (ops c))
    (Ht : total_cost cm (ops c) <= i32_max) :
  to_path_with_costs_wrap c cm = (MkPos 0 0, 0) :: spec_trace cm (MkPos 0 0) 0 (ops c).
Proof.
  destruct Hcm as (Hs & Ho & He). unfold to_path_with_costs_wrap.
  rewrite twc_go_wrap_eq by (first [assumption | lia]). rewrite twc_go_spec. reflexivity.
Qed.

Lemma C5_witness :
  ((0 <= sub (MkCostModel 4 6 2) /\ 0 <= open (MkCostModel 4 6 2) /\
    0 <= extend (MkCostModel 4 6 2)) /\
   Forall (fun e => 0 <= cnt e)
     (ops (MkCigar [MkElem Match 2; MkElem Sub 2; MkElem Ins 3; MkElem Del 1])) /\
   total_cost (MkCostModel 4 6 2)
     (ops (MkCigar [MkElem Match 2; MkElem Sub 2; MkElem Ins 3; MkElem Del 1])) <= i32_max) /\
  to_path_with_costs_wrap (MkCigar [MkElem Match 2; MkElem Sub 2; MkElem Ins 3; MkElem Del 1])
    (MkCostModel 4 6 2)
  = (MkPos 0 0, 0) :: spec_trace (MkCostModel 4 6 2) (MkPos 0 0) 0
                        (ops (MkCigar [MkElem Match 2; MkElem Sub 2; MkElem Ins 3; MkElem Del 1])).
Proof.
  assert (Hcm : 0 <= sub (MkCostModel 4 6 2) /\ 0 <= open (MkCostModel 4 6 2) /\
                0 <= extend (MkCostModel 4 6 2)) by (cbn; lia).
  assert (Hn : Forall (fun e => 0 <= cnt e)
                 (ops (MkCigar [MkElem Match 2; MkElem Sub 2; MkElem Ins 3; MkElem Del 1])))
    by (repeat constructor; cbn; lia).
  assert (Ht : total_cost (MkCostModel 4 6 2)
                 (ops (MkCigar [MkElem Match 2; MkElem Sub 2; MkElem Ins 3; MkElem Del 1]))
               <= i32_max) by (apply Z.leb_le; vm_compute; reflexivity).
  split; [split; [exact Hcm | split; [exact Hn | exact Ht]]|].
  exact (C5_to_path_with_costs_trace _ _ Hcm Hn Ht).
Defined.

(** C5, as first stated for every cost model, fails when the running cost
    passes [i32::MAX]: with [sub = 2^30], the second base of [(Sub, 2)]
    carries -2^31 in place of 2^31 (a debug build panics). *)
Lemma C5_counterexample :
  (0 <= sub (MkCostModel (2 ^ 30) 0 1) /\ 0 <= open (MkCostModel (2 ^ 30) 0 1) /\
   0 <= extend (MkCostModel (2 ^ 30) 0 1)) /\
  to_path_with_costs_wrap (MkCigar [MkElem Sub 2]) (MkCostModel (2 ^ 30) 0 1)
    = [(MkPos 0 0, 0); (MkPos 1 1, 1073741824); (MkPos 2 2, -2147483648)] /\
  (MkPos 0 0, 0) :: spec_trace (MkCostModel (2 ^ 30) 0 1) (MkPos 0 0) 0 [MkElem Sub 2]
    = [(MkPos 0 0, 0); (MkPos 1 1, 1073741824); (MkPos 2 2, 2147483648)].
Proof.
  split; [cbn; lia|]. split; vm_compute; reflexivity.
Defined.

(** C10 (as amended): for a stream of runs with non-negative counts whose
    end point (its summed coordinate delta) fits in [i32], and in which
    every base of every nominal Match run indexes within both sequences,
    [resolve_matches] succeeds and returns a Cigar whose bases, read one by
    one, are those of the input with nominal Match bases reclassified as
    Match or Sub and every other base unchanged (so every base consumes the
    same columns); the summed coordinate delta and the total Ins and Del
    base counts are those of the input. *)
Theorem C10_resolve_matches_preserves_shape (els : list CigarElem) (text pattern : Seq)
  (Hn : Forall (fun e => 0 <= cnt e) els)
  (Hfit : p0 (sum_delta els) <= i32_max /\ p1 (sum_delta els) <= i32_max)
  (Hb : match_bases_in_bounds text pattern (MkPos 0 0) els = true) :
  exists c,
    resolve_matches_wrap els text pattern = Some c /\
    Forall2 reclassified (expand els) (expand (ops c)) /\
    Forall2 (fun i o => delta i = delta o) (expand els) (expand (ops c)) /\
    sum_delta (ops c) = sum_delta els /\
    op_count Ins (ops c) = op_count Ins els /\
    op_count Del (ops c) = op_count Del els.
Proof.
  rewrite resolve_matches_wrap_eq by (first [exact Hn | apply Hfit]).
  destruct (resolve_go_spec text pattern els (MkPos 0 0) (MkCigar []) Hn (Forall_nil _) Hb)
    as (c & E & _ & (out & He & Hf) & Hs & Hi & Hd).
  exists c. cbn [ops] in He, Hs, Hi, Hd. unfold resolve_matches. split; [exact E|].
  rewrite He. cbn [expand flat_map app].
  change (expand []) with (@nil CigarOp) in He |- *. cbn [app].
  split; [exact Hf|]. split.
  - eapply Forall2_impl; [|exact Hf]. intros i o [<- | [-> ->]]; reflexivity.
  - rewrite Hs, Hi, Hd. change (sum_delta []) with (MkPos 0 0).
    change (op_count Ins []) with 0. change (op_count Del []) with 0.
    split; [apply pos_add_0_l | split; reflexivity].
Qed.

Lemma C10_witness :
  exists c,
    resolve_matches_wrap [MkElem Match 3; MkElem Ins 1; MkElem Match 1] [1; 2; 3; 4]
      [1; 5; 3; 9; 4] = Some c /\
    Forall2 reclassified (expand [MkElem Match 3; MkElem Ins 1; MkElem Match 1]) (expand (ops c)) /\
    Forall2 (fun i o => delta i = delta o)
      (expand [MkElem Match 3; MkElem Ins 1; MkElem Match 1]) (expand (ops c)) /\
    sum_delta (ops c) = sum_delta [MkElem Match 3; MkElem Ins 1; MkElem Match 1] /\
    op_count Ins (ops c) = op_count Ins [MkElem Match 3; MkElem Ins 1; MkElem Match 1] /\
    op_count Del (ops c) = op_count Del [MkElem Match 3; MkElem Ins 1; MkElem Match 1].
Proof.
  apply C10_resolve_matches_preserves_shape.
  - repeat constructor; cbn [cnt]; lia.
  - split; apply Z.leb_le; vm_compute; reflexivity.
  - vm_compute. reflexivity.
Defined.

(** C10, as first stated, fails when the end point leaves [i32]: on
    [[(Ins, i32::MAX), (Ins, 1)]] (no Match run, so nothing is indexed) the
    merged count wraps to -2^31 (a debug build panics), and the summed delta
    of the result is not that of the input. *)
Lemma C10_counterexample :
  Forall (fun e => 0 <= cnt e) [MkElem Ins 2147483647; MkElem Ins 1] /\
  match_bases_in_bounds [] [] (MkPos 0 0) [MkElem Ins 2147483647; MkElem Ins 1] = true /\
  resolve_matches_wrap [MkElem Ins 2147483647; MkElem Ins 1] [] []
    = Some (MkCigar [MkElem Ins (-2147483648)]) /\
  sum_delta [MkElem Ins (-2147483648)] <> sum_delta [MkElem Ins 2147483647; MkElem Ins 1].
Proof.
  split; [repeat constructor; cbn [cnt]; lia|].
  split; [reflexivity|]. split; [vm_compute; reflexivity|].
  vm_compute. intros E. discriminate E.
Defined.

(** On a string of ASCII digits and letters whose Cigar (by
    [from_string]) has its end point in [i32], [parse] is [from_string]
    followed by [resolve_matches] (including on which strings panic). *)
Theorem parse_alphanumeric (s : list u8) (text pattern : Seq)
    (H : forallb (fun b => is_ascii_digit b || is_ascii_alphabetic b) s = true)
    (Hfit : forall c, from_string s = Some c ->
            p0 (sum_delta (ops c)) <= i32_max /\ p1 (sum_delta (ops c)) <= i32_max) :
  parse_wrap s text pattern =
  match from_string_wrap s with
  | None => None
  | Some c => resolve_matches_wrap (ops c) text pattern
  end.
Proof.
  assert (Hfs : from_string s =
                option_map (fun els => fold_left push_elem els (MkCigar []))
                  (map_option parse_piece
                     (split_inclusive_go (fun b => negb (is_ascii_digit b)) [] s)))
    by (unfold from_string, split_inclusive; apply from_string_go_spec).
  unfold parse_wrap, from_string_wrap, split_inclusive.
  rewrite (split_inclusive_go_ext is_ascii_alphabetic (fun b => negb (is_ascii_digit b))).
  2: { intros x Hx. apply alphanumeric_split. rewrite forallb_forall in H. exact (H x Hx). }
  pose proof (split_inclusive_go_shape (fun b => negb (is_ascii_digit b)) s [] eq_refl) as Hs.
  rewrite from_string_go_wrap_spec.
  rewrite (map_option_ext_in parse_count_piece parse_piece).
  2: { intros pc Hpc. rewrite Forall_forall in Hs. destruct (Hs pc Hpc) as (init & x & -> & Hi).
       apply parse_count_piece_digits. exact Hi. }
  destruct (map_option parse_piece _) as [els|] eqn:E; [|reflexivity].
  cbn [option_map] in *.
  pose proof (from_string_pieces_nonneg s els E) as Hn.
  pose proof (fold_push_elem_nonneg els (MkCigar []) (Forall_nil _) Hn) as Hc.
  destruct (Hfit _ Hfs) as [C0 C1].
  assert (Hsd : sum_delta (ops (fold_left push_elem els (MkCigar []))) = sum_delta els)
    by (rewrite fold_push_elem_sum_delta by (first [constructor | exact Hn]); apply pos_add_0_l).
  rewrite fold_push_elem_wrap_eq; [| constructor | exact Hn |].
  2: { pose proof (counts_fit_of_sum_delta _ Hc C0 C1) as Hm. revert Hm. apply Forall_impl.
       intros x Hx. lia. }
  rewrite (resolve_matches_wrap_eq els) by (first [exact Hn | rewrite <- Hsd; assumption]).
  rewrite (resolve_matches_wrap_eq (ops (fold_left push_elem els (MkCigar []))))
    by (first [exact Hc | assumption]).
  unfold resolve_matches. rewrite resolve_go_fold_push_elem; [reflexivity | constructor | exact Hn].
Qed.

Lemma parse_alphanumeric_witness :
  (forallb (fun b => is_ascii_digit b || is_ascii_alphabetic b) (bytes "2M1M3I") = true /\
   forall c, from_string (bytes "2M1M3I") = Some c ->
   p0 (sum_delta (ops c)) <= i32_max /\ p1 (sum_delta (ops c)) <= i32_max) /\
  parse_wrap (bytes "2M1M3I") (bytes "abc") (bytes "axcdef") =
  match from_string_wrap (bytes "2M1M3I") with
  | None => None
  | Some c => resolve_matches_wrap (ops c) (bytes "abc") (bytes "axcdef")
  end.
Proof.
  assert (H : forallb (fun b => is_ascii_digit b || is_ascii_alphabetic b) (bytes "2M1M3I") = true)
    by reflexivity.
  assert (Hfit : forall c, from_string (bytes "2M1M3I") = Some c ->
                 p0 (sum_delta (ops c)) <= i32_max /\ p1 (sum_delta (ops c)) <= i32_max).
  { intros c Hc. vm_compute in Hc. injection Hc as <-.
    split; apply Z.leb_le; vm_compute; reflexivity. }
  split; [split; [exact H | exact Hfit]|]. exact (parse_alphanumeric _ _ _ H Hfit).
Defined.

(** On a cost model with non-negative costs and a Cigar whose runs have
    counts of at least one and whose total cost fits in [i32], the cost on
    the last entry of [to_path_with_costs] is the total cost of the Cigar:
    [sub] per Sub base and [open + cnt * extend] per Ins or Del run. *)
Theorem to_path_with_costs_last_cost (c : Cigar) (cm : CostModel)
    (Hcm : 0 <= sub cm /\ 0 <= open cm /\ 0 <= extend cm)
    (Hn : Forall (fun e => 1 <= cnt e) (ops c))
    (Ht : total_cost cm (ops c) <= i32_max) :
  snd (last (to_path_with_costs_wrap c cm) (MkPos 0 0, 0)) = total_cost cm (ops c).
Proof.
  destruct Hcm as (Hs & Ho & He).
  assert (Hn0 : Forall (fun e => 0 <= cnt e) (ops c)).
  { revert Hn. apply Forall_impl. intros x Hx. lia. }
  unfold to_path_with_costs_wrap.
  rewrite twc_go_wrap_eq by (first [assumption | lia]). rewrite twc_go_spec.
  change ((MkPos 0 0, 0) :: spec_trace cm (MkPos 0 0) 0 (ops c))
    with ([(MkPos 0 0, 0)] ++ spec_trace cm (MkPos 0 0) 0 (ops c)).
  rewrite last_app_default. rewrite (spec_trace_last cm (ops c) _ 0); [lia | exact Hn | reflexivity].
Qed.

Lemma to_path_with_costs_last_cost_witness :
  ((0 <= sub (MkCostModel 4 6 2) /\ 0 <= open (MkCostModel 4 6 2) /\
    0 <= extend (MkCostModel 4 6 2)) /\
   Forall (fun e => 1 <= cnt e)
     (ops (MkCigar [MkElem Match 2; MkElem Sub 2; MkElem Ins 3; MkElem Del 1])) /\
   total_cost (MkCostModel 4 6 2)
     (ops (MkCigar [MkElem Match 2; MkElem Sub 2; MkElem Ins 3; MkElem Del 1])) <= i32_max) /\
  snd (last (to_path_with_costs_wrap
               (MkCigar [MkElem Match 2; MkElem Sub 2; MkElem Ins 3; MkElem Del 1])
               (MkCostModel 4 6 2)) (MkPos 0 0, 0)) =
  total_cost (MkCostModel 4 6 2)
    (ops (MkCigar [MkElem Match 2; MkElem Sub 2; MkElem Ins 3; MkElem Del 1])).
Proof.
  assert (Hcm : 0 <= sub (MkCostModel 4 6 2) /\ 0 <= open (MkCostModel 4 6 2) /\
                0 <= extend (MkCostModel 4 6 2)) by (cbn; lia).
  assert (Hn : Forall (fun e => 1 <= cnt e)
                 (ops (MkCigar [MkElem Match 2; MkElem Sub 2; MkElem Ins 3; MkElem Del 1])))
    by (repeat constructor; cbn; lia).
  assert (Ht : total_cost (MkCostModel 4 6 2)
                 (ops (MkCigar [MkElem Match 2; MkElem Sub 2; MkElem Ins 3; MkElem Del 1]))
               <= i32_max) by (apply Z.leb_le; vm_compute; reflexivity).
  split; [split; [exact Hcm | split; [exact Hn | exact Ht]]|].
  exact (to_path_with_costs_last_cost _ _ Hcm Hn Ht).
Defined.

(** On non-negative counts, where the end point after the push fits in
    [i32], [push_elem] appends the bases of the element (merged into the
    last run or not) and moves the end point by its [cnt * delta]. *)
Theorem push_elem_appends (c : Cigar) (e : CigarElem)
    (Hc : Forall (fun e => 0 <= cnt e) (ops c)) (He : 0 <= cnt e)
    (Hfit : p0 (pos_add (sum_delta (ops c)) (pos_mul (delta (op e)) (cnt e))) <= i32_max /\
            p1 (pos_add (sum_delta (ops c)) (pos_mul (delta (op e)) (cnt e))) <= i32_max) :
  expand (ops (push_elem_wrap c e)) = expand (ops c) ++ repeat (op e) (Z.to_nat (cnt e)) /\
  sum_delta (ops (push_elem_wrap c e)) =
  pos_add (sum_delta (ops c)) (pos_mul (delta (op e)) (cnt e)).
Proof.
  destruct (push_elem_ops_measures (ops c) e Hc He) as (_ & Hx & Hs & _).
  rewrite push_elem_wrap_eq;
    [unfold push_elem; cbn [ops]; split; assumption | exact Hc | exact He | |];
    unfold push_elem; cbn [ops]; rewrite Hs; apply Hfit.
Qed.

Lemma push_elem_appends_witness :
  (Forall (fun e => 0 <= cnt e) (ops (MkCigar [MkElem Ins 1; MkElem Match 2])) /\
   0 <= cnt (MkElem Match 3) /\
   p0 (pos_add (sum_delta (ops (MkCigar [MkElem Ins 1; MkElem Match 2])))
         (pos_mul (delta (op (MkElem Match 3))) (cnt (MkElem Match 3)))) <= i32_max /\
   p1 (pos_add (sum_delta (ops (MkCigar [MkElem Ins 1; MkElem Match 2])))
         (pos_mul (delta (op (MkElem Match 3))) (cnt (MkElem Match 3)))) <= i32_max) /\
  expand (ops (push_elem_wrap (MkCigar [MkElem Ins 1; MkElem Match 2]) (MkElem Match 3)))
    = expand (ops (MkCigar [MkElem Ins 1; MkElem Match 2]))
        ++ repeat (op (MkElem Match 3)) (Z.to_nat (cnt (MkElem Match 3))) /\
  sum_delta (ops (push_elem_wrap (MkCigar [MkElem Ins 1; MkElem Match 2]) (MkElem Match 3)))
    = pos_add (sum_delta (ops (MkCigar [MkElem Ins 1; MkElem Match 2])))
        (pos_mul (delta (op (MkElem Match 3))) (cnt (MkElem Match 3))).
Proof.
  assert (Hc : Forall (fun e => 0 <= cnt e) (ops (MkCigar [MkElem Ins 1; MkElem Match 2])))
    by (repeat constructor; cbn; lia).
  assert (He : 0 <= cnt (MkElem Match 3)) by (cbn; lia).
  assert (Hfit :
    p0 (pos_add (sum_delta (ops (MkCigar [MkElem Ins 1; MkElem Match 2])))
          (pos_mul (delta (op (MkElem Match 3))) (cnt (MkElem Match 3)))) <= i32_max /\
    p1 (pos_add (sum_delta (ops (MkCigar [MkElem Ins 1; MkElem Match 2])))
          (pos_mul (delta (op (MkElem Match 3))) (cnt (MkElem Match 3)))) <= i32_max)
    by (split; apply Z.leb_le; vm_compute; reflexivity).
  split; [split; [exact Hc | split; [exact He | exact Hfit]]|].
  exact (push_elem_appends _ _ Hc He Hfit).
Defined.

(** ** Sanity checks on concrete inputs *)

Example to_string_test :
  to_string (MkCigar [MkElem Ins 1; MkElem Match 2]) = bytes "1I2=".
Proof. reflexivity. Qed.

Example from_string_test :
  from_string (bytes "2=3I1X") = Some (MkCigar [MkElem Match 2; MkElem Ins 3; MkElem Sub 1]).
Proof. reflexivity. Qed.

Example from_path_test :
  option_map to_string
    (from_path (bytes "aaa") (bytes "aabc")
       [MkPos 0 0; MkPos 1 1; MkPos 2 2; MkPos 3 3; MkPos 3 4])
  = Some (bytes "2=1X1I").
Proof. reflexivity. Qed.
